(** * An LRU cache with a byte budget: model of [lru/lru.go]

    The Go package keeps a [container/list] doubly linked list of
    [*entry] (front = most recently used), a map from key to the list
    element holding that key, and an [int64] running total of the bytes
    held.  The model below keeps exactly these parts:

    - list elements live in a heap ([gmap ptr entry]); the list is the
      sequence of element addresses, the map sends a key to an address,
      so that the in-place update [kv.value = value] of [Add] is seen
      through both;
    - [int] and [int64] are 64-bit two's complement ([wrap64]);
    - the eviction loop of [Add] carries fuel. *)

From stdpp Require Import base option list gmap strings.
From Stdlib Require Import ZArith Lia.

Local Open Scope Z_scope.

(** ** Machine integers *)

Definition min_int64 : Z := - 2 ^ 63.
Definition max_int64 : Z := 2 ^ 63 - 1.

(** Two's complement reduction of a mathematical integer to 64 bits. *)
Definition wrap64 (z : Z) : Z := (z + 2 ^ 63) mod 2 ^ 64 - 2 ^ 63.

Lemma wrap64_range z : min_int64 ≤ wrap64 z ≤ max_int64.
Proof.
  unfold wrap64, min_int64, max_int64.
  pose proof (Z.mod_pos_bound (z + 2 ^ 63) (2 ^ 64)). lia.
Qed.

(** [a + b] and [a - b] on [int] / [int64]. *)
Definition add64 (a b : Z) : Z := wrap64 (a + b).
Definition sub64 (a b : Z) : Z := wrap64 (a - b).

(** [len(s)] of a Go string: its number of bytes. *)
Definition len (s : string) : Z := Z.of_nat (String.length s).

(** ** The [Value] interface

    [type Value interface { Len() int }]: the only thing the cache asks
    of a payload is its reported size, an [int]. *)
Class Value (V : Type) := {
  Len : V → Z;
  Len_int : ∀ v, min_int64 ≤ Len v ≤ max_int64
}.

(** ** Outcomes of a call

    A call returns a result together with the cache and the state of the
    surrounding program, panics (a failed type assertion on [ele.Value]), or has
    not returned within the fuel given to its loop. *)
Inductive outcome (C W A : Type) : Type :=
| Done (a : A) (c : C) (w : W)
| Panic
| Timeout.
Arguments Done {C W A} a c w.
Arguments Panic {C W A}.
Arguments Timeout {C W A}.

(** ** container/list on element addresses *)

(** Address of a [list.Element]. *)
Definition ptr : Type := positive.

(** [l.Back()]: the last element, [nil] on the empty list. *)
Definition Back (l : list ptr) : option ptr := last l.

(** [l.remove(e)]: unlink [e]. *)
Definition unlink (e : ptr) (l : list ptr) : list ptr :=
  filter (λ q, q ≠ e) l.

(** [l.MoveToFront(e)]: nothing happens when [e] is not an element of
    [l]; otherwise [e] is unlinked and linked again after the root. *)
Definition MoveToFront (e : ptr) (l : list ptr) : list ptr :=
  if decide (e ∈ l) then e :: unlink e l else l.

(** [l.Remove(e)], the list part: [e] is unlinked if it is in [l]. *)
Definition Remove (e : ptr) (l : list ptr) : list ptr := unlink e l.

Section Lru.

Context {V : Type} `{!Value V}.

(** State of the program around the cache: what the eviction callback
    can change. *)
Context {W : Type}.

(** [type entry struct { key string; value Value }] *)
Record entry : Type := Entry { key : string; value : V }.

(** [type Cache struct]: [heap] holds the list elements with their
    entries, [ll] is the list from front to back, [cache] the map.
    The field [OnEvicted] is kept apart (below). *)
Record Cache : Type := mkCache {
  maxBytes : Z;
  nbytes : Z;
  heap : gmap ptr entry;
  ll : list ptr;
  cache : gmap string ptr
}.

(** The field [OnEvicted func(key string, value Value)], [None] for
    [nil].  No method assigns it, so it is fixed for the life of a cache.
    A Go closure acts on the program around it and may read the cache it
    hangs on: the model passes it the cache as it is at the moment of the
    call and the program state it transforms. *)
Variable OnEvicted : option (string → V → Cache → W → W).

(** [int64(len(key) + value.Len())]: what an entry weighs in [nbytes]. *)
Definition entry_size (k : string) (v : V) : Z := add64 (len k) (Len v).

(** The entries held by the elements [l], in the order of [l]. *)
Definition ents (h : gmap ptr entry) (l : list ptr) : list entry :=
  omap (λ p, h !! p) l.

(** The entries from most to least recently used. *)
Definition entries (c : Cache) : list entry := ents (heap c) (ll c).

(** The resident keys from most to least recently used. *)
Definition keys (c : Cache) : list string := key <$> entries c.

(** Key length + value size of an entry, as a mathematical integer. *)
Definition cost (e : entry) : Z := len (key e) + Len (value e).

Definition sumZ (l : list Z) : Z := foldr Z.add 0 l.

(** The exact sum of (key length + value size) over the resident
    entries. *)
Definition total (c : Cache) : Z := sumZ (cost <$> entries c).

(** [New]: an empty cache with the given budget. *)
Definition New (maxBytes : Z) : Cache :=
  mkCache maxBytes 0 ∅ [] ∅.

(** [Get] *)
Definition Get (k : string) (c : Cache) (w : W)
  : outcome Cache W (option V * bool) :=
  match cache c !! k with
  | Some ele =>
      let c1 := mkCache (maxBytes c) (nbytes c) (heap c)
                        (MoveToFront ele (ll c)) (cache c) in
      match heap c1 !! ele with
      | Some kv => Done (Some (value kv), true) c1 w
      | None => Panic
      end
  | None => Done (None, false) c w
  end.

(** [RemoveOldest]: the three updates of the cache, then the callback
    on the cache so updated. *)
Definition RemoveOldest (c : Cache) (w : W) : outcome Cache W unit :=
  match Back (ll c) with
  | Some ele =>
      match heap c !! ele with
      | Some kv =>
          let c1 := mkCache (maxBytes c) (nbytes c) (heap c)
                            (Remove ele (ll c)) (cache c) in
          let c2 := mkCache (maxBytes c1) (nbytes c1) (heap c1) (ll c1)
                            (delete (key kv) (cache c1)) in
          let c3 := mkCache (maxBytes c2)
                            (sub64 (nbytes c2) (entry_size (key kv) (value kv)))
                            (heap c2) (ll c2) (cache c2) in
          match OnEvicted with
          | Some f => Done tt c3 (f (key kv) (value kv) c3 w)
          | None => Done tt c3 w
          end
      | None => Panic
      end
  | None => Done tt c w
  end.

(** The cache [RemoveOldest] leaves when the elements before the back
    one are [l1] and the back one holds [e]. *)
Definition without_oldest (c : Cache) (l1 : list ptr) (e : entry) : Cache :=
  mkCache (maxBytes c) (sub64 (nbytes c) (entry_size (key e) (value e)))
          (heap c) l1 (delete (key e) (cache c)).

(** The program state after the callback, if there is one, ran for the
    entry [e] on the cache [c']. *)
Definition notified (e : entry) (c' : Cache) (w : W) : W :=
  match OnEvicted with
  | Some f => f (key e) (value e) c' w
  | None => w
  end.

(** The two branches of [Add] before its loop. *)
Definition insert_or_update (k : string) (v : V) (c : Cache)
  : option Cache :=
  match cache c !! k with
  | Some ele =>
      let l := MoveToFront ele (ll c) in
      match heap c !! ele with
      | Some kv =>
          Some (mkCache (maxBytes c)
                        (add64 (nbytes c) (sub64 (Len v) (Len (value kv))))
                        (<[ele := Entry (key kv) v]> (heap c))
                        l (cache c))
      | None => None
      end
  | None =>
      let newEle := fresh (dom (heap c)) in
      Some (mkCache (maxBytes c)
                    (add64 (nbytes c) (entry_size k v))
                    (<[newEle := Entry k v]> (heap c))
                    (newEle :: ll c)
                    (<[k := newEle]> (cache c)))
  end.

(** [c.maxBytes != 0 && c.maxBytes < c.nbytes] *)
Definition over_budget (c : Cache) : bool :=
  negb (maxBytes c =? 0) && (maxBytes c <? nbytes c).

(** [for c.maxBytes != 0 && c.maxBytes < c.nbytes { c.RemoveOldest() }];
    one unit of fuel per test of the condition. *)
Fixpoint evict (fuel : nat) (c : Cache) (w : W) : outcome Cache W unit :=
  match fuel with
  | O => Timeout
  | S fuel' =>
      if over_budget c then
        match RemoveOldest c w with
        | Done _ c' w' => evict fuel' c' w'
        | Panic => Panic
        | Timeout => Timeout
        end
      else Done tt c w
  end.

(** [Add] *)
Definition Add (fuel : nat) (k : string) (v : V) (c : Cache) (w : W)
  : outcome Cache W unit :=
  match insert_or_update k v c with
  | Some c1 => evict fuel c1 w
  | None => Panic
  end.

(** A run of [Add] calls, one after the other. *)
Fixpoint add_all (fuel : nat) (kvs : list (string * V)) (c : Cache) (w : W)
  : outcome Cache W unit :=
  match kvs with
  | [] => Done tt c w
  | (k, v) :: rest =>
      match Add fuel k v c w with
      | Done _ c' w' => add_all fuel rest c' w'
      | Panic => Panic
      | Timeout => Timeout
      end
  end.

(** [n] calls of [RemoveOldest], one after the other. *)
Fixpoint drain (n : nat) (c : Cache) (w : W) : outcome Cache W unit :=
  match n with
  | O => Done tt c w
  | S n' =>
      match RemoveOldest c w with
      | Done _ c' w' => drain n' c' w'
      | Panic => Panic
      | Timeout => Timeout
      end
  end.

(** [Len] of the cache: [c.ll.Len()] *)
Definition Cache_Len (c : Cache) (w : W) : outcome Cache W Z :=
  Done (Z.of_nat (length (ll c))) c w.

(** ** Well-formed caches and reachable caches *)

(** The list holds no element twice, every element of the list is
    allocated and indexed under its key, every key of the map points to
    the element of the list that holds it, the map and the list have as
    many members, and [nbytes] is the sum of the resident sizes in
    64-bit arithmetic. *)
Record wf (c : Cache) : Prop := mk_wf {
  wf_nodup : NoDup (ll c);
  wf_elem : ∀ p, p ∈ ll c →
            ∃ e, heap c !! p = Some e ∧ cache c !! key e = Some p;
  wf_index : ∀ k p, cache c !! k = Some p →
             p ∈ ll c ∧ ∃ e, heap c !! p = Some e ∧ key e = k;
  wf_card : size (cache c) = length (ll c);
  wf_bytes : nbytes c = wrap64 (total c)
}.

(** The caches a program can hold: built by [New] from an [int64] budget
    and changed by calls of the four methods that returned. *)
Inductive reachable : Cache → Prop :=
| reach_New mb :
    min_int64 ≤ mb ≤ max_int64 → reachable (New mb)
| reach_Get k c w r c' w' :
    reachable c → Get k c w = Done r c' w' → reachable c'
| reach_Add fuel k v c w c' w' :
    reachable c → Add fuel k v c w = Done tt c' w' → reachable c'
| reach_RemoveOldest c w c' w' :
    reachable c → RemoveOldest c w = Done tt c' w' → reachable c'
| reach_Len c w n c' w' :
    reachable c → Cache_Len c w = Done n c' w' → reachable c'.

(** What a caller may rely on between two calls: the index holds
    exactly the keys of the recency order, each once, and sends each to
    the element that holds it; the index and the order have as many
    members; [nbytes] is the exact sum of the sizes reduced to 64 bits,
    hence that sum itself when it is in the [int64] range. *)
Definition consistent (c : Cache) : Prop :=
  NoDup (keys c)
  ∧ (∀ k, k ∈ keys c ↔ is_Some (cache c !! k))
  ∧ (∀ k p, cache c !! k = Some p →
            p ∈ ll c ∧ ∃ e, heap c !! p = Some e ∧ key e = k)
  ∧ size (cache c) = length (keys c)
  ∧ length (keys c) = length (ll c)
  ∧ nbytes c = wrap64 (total c)
  ∧ (min_int64 ≤ total c ≤ max_int64 → nbytes c = total c).

(** The budget [mb] holds the entries [es]: their sizes, summed the way
    the cache sums them (in [int64]), do not exceed it. *)
Definition holds (mb : Z) (es : list entry) : Prop :=
  wrap64 (sumZ (cost <$> es)) ≤ mb.

(** Every resident value reports a size that is not negative. *)
Definition nonneg_sizes (c : Cache) : Prop :=
  Forall (λ e, 0 ≤ Len (value e)) (entries c).

(** [a] is nearer the front than [b] in [l]. *)
Definition before (a b : string) (l : list string) : Prop :=
  ∃ l1 l2 l3, l = l1 ++ a :: l2 ++ b :: l3.

(** While [b] is resident, [a] is resident nearer the front. *)
Definition ahead (a b : string) (c : Cache) : Prop :=
  b ∈ keys c → before a b (keys c).

(** A run of calls none of which is a [Get] or an [Add] of the key [a]
    or of the key [b]. *)
Inductive untouched (a b : string) : Cache → W → Cache → W → Prop :=
| untouched_refl c w : untouched a b c w c w
| untouched_Get k c w r c1 w1 c2 w2 :
    k ≠ a → k ≠ b → Get k c w = Done r c1 w1 →
    untouched a b c1 w1 c2 w2 → untouched a b c w c2 w2
| untouched_Add fuel k v c w c1 w1 c2 w2 :
    k ≠ a → k ≠ b → Add fuel k v c w = Done tt c1 w1 →
    untouched a b c1 w1 c2 w2 → untouched a b c w c2 w2
| untouched_RemoveOldest c w c1 w1 c2 w2 :
    RemoveOldest c w = Done tt c1 w1 →
    untouched a b c1 w1 c2 w2 → untouched a b c w c2 w2
| untouched_Len c w n c1 w1 c2 w2 :
    Cache_Len c w = Done n c1 w1 →
    untouched a b c1 w1 c2 w2 → untouched a b c w c2 w2.

End Lru.

(** ** Concrete payloads *)

(** [type String string] with [Len() = len(s)]. *)
#[export] Instance string_Value : Value string :=
  {| Len s := wrap64 (len s); Len_int s := wrap64_range (len s) |}.

(** A payload that reports whatever size it was given:
    [type Sized int] with [Len() = int(s)]. *)
Inductive Sized : Type := Sz (n : Z).

#[export] Instance Sized_Value : Value Sized :=
  {| Len '(Sz n) := wrap64 n; Len_int '(Sz n) := wrap64_range n |}.

(** A log of evictions: the key and the value the callback was called
    with, and the [nbytes] and the keys of the cache it saw. *)
Definition Log (V : Type) : Type := list (string * V * Z * list string).

(** The keys and values the callback was called with, first call
    first. *)
Definition calls {V : Type} (w : Log V) : list (string * V) :=
  (λ x, x.1.1) <$> w.

(** A callback that appends its call to the log. *)
Definition log_eviction {V : Type}
  : option (string → V → @Cache V → Log V → Log V) :=
  Some (λ k v c w, w ++ [(k, v, nbytes c, keys c)]).

(** The cache a call left, [d] if it did not return. *)
Definition cache_after {V W A : Type} (o : outcome (@Cache V) W A)
  (d : @Cache V) : @Cache V :=
  match o with
  | Done _ c _ => c
  | _ => d
  end.

(** The program state a call left, [d] if it did not return. *)
Definition world_after {C W A : Type} (o : outcome C W A) (d : W) : W :=
  match o with
  | Done _ _ w => w
  | _ => d
  end.

(** Whether a call returned. *)
Definition returned {C W A : Type} (o : outcome C W A) : bool :=
  match o with
  | Done _ _ _ => true
  | _ => false
  end.

(** [New(0, nil)] then [Add("a", Sized(MaxInt64))]. *)
Definition huge_unbounded : @Cache Sized :=
  cache_after (Add None 1 "a" (Sz max_int64) (New 0) tt) (New 0).

(** [New(10, log)] then [Add("a", "aaaa")] and [Add("b", "bbbb")]. *)
Definition two_entries : @Cache string :=
  cache_after
    (Add log_eviction 1 "b" "bbbb"%string
       (cache_after (Add log_eviction 1 "a" "aaaa"%string (New 10) [])
                    (New 10)) [])
    (New 10).

(** [two_entries] then [Add("c", "cccc")]. *)
Definition third_add
  : outcome (@Cache string) (Log string) unit :=
  Add log_eviction 3 "c" "cccc"%string two_entries [].

(** [New(3, log)] then [Add("k", "hello")]: the entry weighs 6. *)
Definition oversized_add
  : outcome (@Cache string) (Log string) unit :=
  Add log_eviction 2 "k" "hello"%string (New 3) [].

(** [New(5, nil)] then [Add("a", Sized(MaxInt64))]. *)
Definition huge_bounded : @Cache Sized :=
  cache_after (Add None 1 "a" (Sz max_int64) (New 5) tt) (New 5).

(** [New(-1, log)] then [Add("a", Sized(MaxInt64))]. *)
Definition negative_one : @Cache Sized :=
  cache_after (Add log_eviction 1 "a" (Sz max_int64) (New (-1)) [])
              (New (-1)).

(** [negative_one] then [Add("c", Sized(MaxInt64))]. *)
Definition negative_second_add
  : outcome (@Cache Sized) (Log Sized) unit :=
  Add log_eviction 2 "c" (Sz max_int64) negative_one [].

(** [New(10, log)], [Add("k", "aaaa")], then [Add] of 20 bytes under
    the same key. *)
Definition one_entry : @Cache string :=
  cache_after (Add log_eviction 1 "k" "aaaa"%string (New 10) []) (New 10).

Definition growing_update
  : outcome (@Cache string) (Log string) unit :=
  Add log_eviction 2 "k" "aaaaaaaaaaaaaaaaaaaa"%string one_entry [].

(** [one_entry] then [Add("k", "aaaa")] once more. *)
Definition same_add_again : outcome (@Cache string) (Log string) unit :=
  Add log_eviction 1 "k" "aaaa"%string one_entry [].

(** [two_entries] then [Get("a")]. *)
Definition get_older
  : outcome (@Cache string) (Log string) (option string * bool) :=
  Get "a" two_entries [].

(** ** Facts on 64-bit arithmetic *)

Lemma wrap64_id z : min_int64 ≤ z ≤ max_int64 → wrap64 z = z.
Proof.
  unfold wrap64, min_int64, max_int64. intros Hz.
  rewrite Z.mod_small; lia.
Qed.

Lemma wrap64_eq z : ∃ k, wrap64 z = z + k * 2 ^ 64.
Proof.
  exists (- ((z + 2 ^ 63) / 2 ^ 64)). unfold wrap64.
  pose proof (Z.div_mod (z + 2 ^ 63) (2 ^ 64)). lia.
Qed.

Lemma wrap64_congr a b k : a = b + k * 2 ^ 64 → wrap64 a = wrap64 b.
Proof.
  intros ->. unfold wrap64. f_equal.
  replace (b + k * 2 ^ 64 + 2 ^ 63) with (b + 2 ^ 63 + k * 2 ^ 64) by lia.
  apply Z_mod_plus_full.
Qed.

Lemma wrap64_add_l a b : wrap64 (wrap64 a + b) = wrap64 (a + b).
Proof. destruct (wrap64_eq a) as [k ->]. apply wrap64_congr with k. lia. Qed.

Lemma wrap64_add_r a b : wrap64 (a + wrap64 b) = wrap64 (a + b).
Proof. destruct (wrap64_eq b) as [k ->]. apply wrap64_congr with k. lia. Qed.

Lemma wrap64_sub_l a b : wrap64 (wrap64 a - b) = wrap64 (a - b).
Proof. destruct (wrap64_eq a) as [k ->]. apply wrap64_congr with k. lia. Qed.

Lemma wrap64_sub_r a b : wrap64 (a - wrap64 b) = wrap64 (a - b).
Proof. destruct (wrap64_eq b) as [k ->]. apply wrap64_congr with (- k). lia. Qed.

(** ** Facts on the linked list *)

Lemma unlink_notin e l : e ∉ l → unlink e l = l.
Proof.
  unfold unlink. induction l as [|x l IH]; intros Hn; [done|].
  apply not_elem_of_cons in Hn as [Hne Hn].
  rewrite filter_cons_True by congruence. f_equal. auto.
Qed.

Lemma unlink_split e l1 l2 :
  e ∉ l1 → e ∉ l2 → unlink e (l1 ++ e :: l2) = l1 ++ l2.
Proof.
  intros H1 H2. unfold unlink. rewrite filter_app. rewrite filter_cons_False by tauto.
  fold (unlink e l1) (unlink e l2). by rewrite !unlink_notin.
Qed.

Lemma NoDup_split (e : ptr) l :
  NoDup l → e ∈ l → ∃ l1 l2, l = l1 ++ e :: l2 ∧ (e ∉ l1) ∧ (e ∉ l2).
Proof.
  intros Hnd Hin. apply list_elem_of_split in Hin as (l1 & l2 & ->).
  exists l1, l2. apply NoDup_app in Hnd as (_ & Hd & Hnd2).
  apply NoDup_cons in Hnd2 as [Hn2 _].
  repeat split; [|done]. intros Hin1. apply (Hd _ Hin1). left.
Qed.

Lemma Back_split l e : Back l = Some e → ∃ l1, l = l1 ++ [e].
Proof. unfold Back. intros H. apply last_Some in H. done. Qed.

Section Invariant.

Context {V : Type} `{!Value V} {W : Type}.
Variable OnEvicted : option (string → V → @Cache V → W → W).

Implicit Types (c : @Cache V) (h : gmap ptr (@entry V)) (l : list ptr)
  (e : @entry V) (p q : ptr) (k : string) (v : V) (w : W).

Lemma sumZ_cons (x : Z) (xs : list Z) : sumZ (x :: xs) = x + sumZ xs.
Proof. done. Qed.

Lemma sumZ_app (l1 l2 : list Z) : sumZ (l1 ++ l2) = sumZ l1 + sumZ l2.
Proof. induction l1 as [|x l1 IH]; simpl; lia. Qed.

Lemma ents_cons h p e l : h !! p = Some e → ents h (p :: l) = e :: ents h l.
Proof. intros Hp. unfold ents. cbn [omap list_omap]. by rewrite Hp. Qed.

Lemma ents_app h l1 l2 : ents h (l1 ++ l2) = ents h l1 ++ ents h l2.
Proof. apply omap_app. Qed.

Lemma ents_insert_notin h p e l : p ∉ l → ents (<[p := e]> h) l = ents h l.
Proof.
  induction l as [|x l IH]; intros Hn; [done|].
  apply not_elem_of_cons in Hn as [Hne Hn]. unfold ents in *.
  cbn [omap list_omap]. rewrite lookup_insert_ne by done.
  fold (omap (λ q, <[p := e]> h !! q) l). by rewrite IH.
Qed.

Lemma ents_length h l :
  (∀ p, p ∈ l → is_Some (h !! p)) → length (ents h l) = length l.
Proof.
  induction l as [|x l IH]; intros Hall; [done|].
  destruct (Hall x) as [e He]; [left|].
  rewrite (ents_cons _ _ e) by done. simpl. f_equal. apply IH.
  intros p Hp. apply Hall. by right.
Qed.

Lemma weight_cons h p e l :
  h !! p = Some e →
  sumZ (cost <$> ents h (p :: l)) = cost e + sumZ (cost <$> ents h l).
Proof. intros Hp. by rewrite (ents_cons _ _ e). Qed.

Lemma weight_app h l1 l2 :
  sumZ (cost <$> ents h (l1 ++ l2))
  = sumZ (cost <$> ents h l1) + sumZ (cost <$> ents h l2).
Proof. by rewrite ents_app, fmap_app, sumZ_app. Qed.

Lemma weight_perm h l l' :
  l ≡ₚ l' → sumZ (cost <$> ents h l) = sumZ (cost <$> ents h l').
Proof.
  induction 1 as [|x l l' _ IH|x y l|l l' l'' _ IH1 _ IH2].
  - done.
  - destruct (h !! x) as [e|] eqn:Hx.
    + by rewrite !(weight_cons _ _ e), IH.
    + unfold ents in *. cbn [omap list_omap]. by rewrite Hx.
  - unfold ents. cbn [omap list_omap].
    destruct (h !! x), (h !! y); cbn [fmap list_fmap sumZ foldr]; lia.
  - congruence.
Qed.

Lemma wf_permute c l' :
  wf c → l' ≡ₚ ll c →
  wf (mkCache (maxBytes c) (nbytes c) (heap c) l' (cache c)).
Proof.
  intros [Hnd Hel Hix Hcard Hb] Hp. split; simpl.
  - by rewrite Hp.
  - intros p Hin. rewrite Hp in Hin. auto.
  - intros k p Hk. rewrite Hp. auto.
  - by rewrite Hp.
  - rewrite Hb. unfold total, entries. simpl. f_equal. symmetry.
    by apply weight_perm.
Qed.

Lemma wf_New mb : wf (New mb).
Proof.
  split; simpl.
  - constructor.
  - intros p Hp. by apply elem_of_nil in Hp.
  - intros k p Hk. by rewrite lookup_empty in Hk.
  - by rewrite map_size_empty.
  - done.
Qed.

Lemma wf_lookup c k p :
  wf c → cache c !! k = Some p →
  ∃ l1 l2 e, ll c = l1 ++ p :: l2 ∧ (p ∉ l1) ∧ (p ∉ l2)
             ∧ heap c !! p = Some e ∧ key e = k.
Proof.
  intros Hwf Hk. destruct (wf_index c Hwf k p Hk) as (Hin & e & He & Hke).
  destruct (NoDup_split p (ll c) (wf_nodup c Hwf) Hin) as (l1 & l2 & ? & ? & ?).
  by exists l1, l2, e.
Qed.

Lemma wf_allocated c p : wf c → p ∈ ll c → p ∈ dom (heap c).
Proof.
  intros Hwf Hin. destruct (wf_elem c Hwf p Hin) as (e & He & _).
  apply elem_of_dom. eauto.
Qed.

Lemma fresh_not_linked c : wf c → fresh (dom (heap c)) ∉ ll c.
Proof.
  intros Hwf Hin. apply (is_fresh (dom (heap c))). by apply wf_allocated.
Qed.

Lemma MoveToFront_split p l1 l2 :
  p ∉ l1 → p ∉ l2 → MoveToFront p (l1 ++ p :: l2) = p :: l1 ++ l2.
Proof.
  intros H1 H2. unfold MoveToFront. rewrite decide_True.
  - by rewrite unlink_split.
  - apply elem_of_app. right. left.
Qed.

(** *** What each method does to a well-formed cache *)

Lemma Get_miss c w k :
  cache c !! k = None → Get k c w = Done (None, false) c w.
Proof. intros Hk. unfold Get. by rewrite Hk. Qed.

Lemma Get_hit c w k p l1 l2 e :
  cache c !! k = Some p → ll c = l1 ++ p :: l2 → p ∉ l1 → p ∉ l2 →
  heap c !! p = Some e →
  Get k c w = Done (Some (value e), true)
                   (mkCache (maxBytes c) (nbytes c) (heap c)
                            (p :: l1 ++ l2) (cache c)) w.
Proof.
  intros Hk Hl H1 H2 He. unfold Get. rewrite Hk. simpl.
  by rewrite He, Hl, MoveToFront_split.
Qed.

Lemma update_hit c k v p l1 l2 e :
  cache c !! k = Some p → ll c = l1 ++ p :: l2 → p ∉ l1 → p ∉ l2 →
  heap c !! p = Some e →
  insert_or_update k v c
  = Some (mkCache (maxBytes c)
                  (add64 (nbytes c) (sub64 (Len v) (Len (value e))))
                  (<[p := Entry (key e) v]> (heap c))
                  (p :: l1 ++ l2) (cache c)).
Proof.
  intros Hk Hl H1 H2 He. unfold insert_or_update. rewrite Hk, He. simpl.
  by rewrite Hl, MoveToFront_split.
Qed.

Lemma insert_miss c k v :
  cache c !! k = None →
  insert_or_update k v c
  = Some (mkCache (maxBytes c) (add64 (nbytes c) (entry_size k v))
                  (<[fresh (dom (heap c)) := Entry k v]> (heap c))
                  (fresh (dom (heap c)) :: ll c)
                  (<[k := fresh (dom (heap c))]> (cache c))).
Proof. intros Hk. unfold insert_or_update. by rewrite Hk. Qed.

Lemma RemoveOldest_empty c w : ll c = [] → RemoveOldest OnEvicted c w = Done tt c w.
Proof. intros Hl. unfold RemoveOldest. by rewrite Hl. Qed.

Lemma RemoveOldest_back c w l1 p e :
  NoDup (ll c) → ll c = l1 ++ [p] → heap c !! p = Some e →
  RemoveOldest OnEvicted c w
  = Done tt (without_oldest c l1 e)
         (notified OnEvicted e (without_oldest c l1 e) w).
Proof.
  intros Hnd Hl He. unfold RemoveOldest, Back. rewrite Hl, last_snoc, He.
  rewrite Hl in Hnd. apply NoDup_app in Hnd as (_ & Hd & _).
  assert (p ∉ l1) as Hn by (intros Hin; apply (Hd _ Hin); left).
  unfold Remove. simpl. rewrite (unlink_split p l1 []) by (done || apply not_elem_of_nil).
  rewrite app_nil_r. unfold notified, without_oldest.
  by destruct OnEvicted.
Qed.

(** *** The methods keep a cache well-formed *)

Lemma wf_front c l1 l2 p :
  wf c → ll c = l1 ++ p :: l2 →
  wf (mkCache (maxBytes c) (nbytes c) (heap c) (p :: l1 ++ l2) (cache c)).
Proof.
  intros Hwf Hl. apply wf_permute; [done|]. rewrite Hl.
  apply Permutation_middle.
Qed.

Lemma wf_update c k v p l1 l2 e :
  wf c → cache c !! k = Some p → ll c = l1 ++ p :: l2 → p ∉ l1 → p ∉ l2 →
  heap c !! p = Some e →
  wf (mkCache (maxBytes c)
              (add64 (nbytes c) (sub64 (Len v) (Len (value e))))
              (<[p := Entry (key e) v]> (heap c))
              (p :: l1 ++ l2) (cache c)).
Proof.
  intros Hwf Hk Hl H1 H2 He.
  pose proof (wf_front c l1 l2 p Hwf Hl) as [Hnd Hel Hix Hcard _].
  simpl in *. split; simpl; [done| | |done|].
  - intros q Hq. destruct (decide (q = p)) as [->|Hne].
    + exists (Entry (key e) v). rewrite lookup_insert_eq. split; [done|].
      simpl. destruct (Hel p Hq) as (e' & He' & Hke). congruence.
    + rewrite lookup_insert_ne by done. auto.
  - intros k' q Hk'. destruct (Hix k' q Hk') as (Hq & e' & He' & Hke).
    split; [done|]. destruct (decide (q = p)) as [->|Hne].
    + exists (Entry (key e) v). rewrite lookup_insert_eq. split; [done|].
      simpl. congruence.
    + rewrite lookup_insert_ne by done. eauto.
  - rewrite (wf_bytes c Hwf). unfold add64, sub64.
    rewrite wrap64_add_l, wrap64_add_r.
    unfold total, entries. cbn [heap ll]. rewrite Hl.
    rewrite (weight_cons _ p (Entry (key e) v)) by apply lookup_insert_eq.
    rewrite !weight_app, (weight_cons _ p e) by done.
    rewrite !ents_insert_notin by done.
    unfold cost. simpl. f_equal. lia.
Qed.

Lemma wf_insert c k v :
  wf c → cache c !! k = None →
  wf (mkCache (maxBytes c) (add64 (nbytes c) (entry_size k v))
              (<[fresh (dom (heap c)) := Entry k v]> (heap c))
              (fresh (dom (heap c)) :: ll c)
              (<[k := fresh (dom (heap c))]> (cache c))).
Proof.
  intros Hwf Hk. pose proof (fresh_not_linked c Hwf) as Hfresh.
  set (p := fresh (dom (heap c))) in *.
  destruct Hwf as [Hnd Hel Hix Hcard Hb]. split; simpl.
  - by apply NoDup_cons.
  - intros q Hq. apply elem_of_cons in Hq as [->|Hq].
    + exists (Entry k v). by rewrite !lookup_insert_eq.
    + destruct (Hel q Hq) as (e & He & Hke). exists e.
      rewrite !lookup_insert_ne; [done| |]; congruence.
  - intros k' q Hk'. destruct (decide (k' = k)) as [->|Hne].
    + rewrite lookup_insert_eq in Hk'. injection Hk' as <-.
      split; [left|]. exists (Entry k v). by rewrite lookup_insert_eq.
    + rewrite lookup_insert_ne in Hk' by done.
      destruct (Hix k' q Hk') as (Hq & e & He & Hke).
      split; [by right|]. exists e. rewrite lookup_insert_ne; [done|].
      congruence.
  - rewrite map_size_insert_None by done. by rewrite Hcard.
  - rewrite Hb. unfold add64, entry_size, add64.
    rewrite wrap64_add_l, wrap64_add_r.
    unfold total, entries. cbn [heap ll].
    rewrite (weight_cons _ p (Entry k v)) by apply lookup_insert_eq.
    rewrite ents_insert_notin by done. unfold cost. simpl. f_equal. lia.
Qed.

Lemma wf_without_oldest c l1 p e :
  wf c → ll c = l1 ++ [p] → heap c !! p = Some e →
  wf (without_oldest c l1 e).
Proof.
  intros Hwf Hl He.
  assert (p ∈ ll c) as Hp by (rewrite Hl; apply elem_of_app; right; left).
  destruct (wf_elem c Hwf p Hp) as (e' & He' & Hkp).
  assert (e' = e) as -> by congruence.
  destruct Hwf as [Hnd Hel Hix Hcard Hb].
  assert (p ∉ l1) as Hn.
  { rewrite Hl in Hnd. apply NoDup_app in Hnd as (_ & Hd & _).
    intros Hin. apply (Hd _ Hin). left. }
  unfold without_oldest. split; simpl.
  - rewrite Hl in Hnd. by apply NoDup_app in Hnd as (? & _ & _).
  - intros q Hq.
    assert (q ∈ ll c) as Hq' by (rewrite Hl; apply elem_of_app; by left).
    destruct (Hel q Hq') as (eq & Heq & Hkq). exists eq. split; [done|].
    rewrite lookup_delete_ne; [done|]. intros Hkk. rewrite Hkk in Hkp.
    assert (q = p) as -> by congruence. done.
  - intros k q Hk. destruct (decide (key e = k)) as [<-|Hne].
    + by rewrite lookup_delete_eq in Hk.
    + rewrite lookup_delete_ne in Hk by done.
      destruct (Hix k q Hk) as (Hq & eq & Heq & Hkq).
      rewrite Hl in Hq. apply elem_of_app in Hq as [Hq|Hq]; [eauto|].
      apply list_elem_of_singleton in Hq as ->. congruence.
  - rewrite map_size_delete_Some by eauto. rewrite Hcard, Hl, length_app.
    simpl. lia.
  - rewrite Hb. unfold sub64, entry_size, add64.
    rewrite wrap64_sub_l, wrap64_sub_r.
    unfold total, entries. cbn [heap ll]. rewrite Hl, weight_app.
    rewrite (weight_cons _ p e) by done. simpl. unfold cost. f_equal. lia.
Qed.

Lemma RemoveOldest_cases c w :
  wf c →
  (ll c = [] ∧ RemoveOldest OnEvicted c w = Done tt c w)
  ∨ (∃ l1 p e, ll c = l1 ++ [p] ∧ heap c !! p = Some e
               ∧ cache c !! key e = Some p
               ∧ RemoveOldest OnEvicted c w
                 = Done tt (without_oldest c l1 e)
                        (notified OnEvicted e (without_oldest c l1 e) w)).
Proof.
  intros Hwf. destruct (Back (ll c)) as [p|] eqn:Hback.
  - right. destruct (Back_split _ _ Hback) as [l1 Hl].
    assert (p ∈ ll c) as Hp by (rewrite Hl; apply elem_of_app; right; left).
    destruct (wf_elem c Hwf p Hp) as (e & He & Hk).
    exists l1, p, e. repeat split; try done.
    apply RemoveOldest_back with p; [apply Hwf|done|done].
  - left. unfold Back in Hback. apply last_None in Hback.
    split; [done|]. by apply RemoveOldest_empty.
Qed.

Lemma insert_or_update_cases c k v :
  wf c →
  (∃ p l1 l2 e, cache c !! k = Some p ∧ ll c = l1 ++ p :: l2
                ∧ (p ∉ l1) ∧ (p ∉ l2) ∧ heap c !! p = Some e ∧ key e = k
                ∧ insert_or_update k v c
                  = Some (mkCache (maxBytes c)
                            (add64 (nbytes c) (sub64 (Len v) (Len (value e))))
                            (<[p := Entry (key e) v]> (heap c))
                            (p :: l1 ++ l2) (cache c)))
  ∨ (cache c !! k = None
     ∧ insert_or_update k v c
       = Some (mkCache (maxBytes c) (add64 (nbytes c) (entry_size k v))
                 (<[fresh (dom (heap c)) := Entry k v]> (heap c))
                 (fresh (dom (heap c)) :: ll c)
                 (<[k := fresh (dom (heap c))]> (cache c)))).
Proof.
  intros Hwf. destruct (cache c !! k) as [p|] eqn:Hk.
  - left. destruct (wf_lookup c k p Hwf Hk) as (l1 & l2 & e & Hl & H1 & H2 & He & Hke).
    exists p, l1, l2, e. repeat split; try done. by apply update_hit.
  - right. split; [done|]. by apply insert_miss.
Qed.

Lemma Get_wf c w k r c' w' :
  wf c → Get k c w = Done r c' w' → wf c' ∧ w' = w.
Proof.
  intros Hwf HG. destruct (cache c !! k) as [p|] eqn:Hk.
  - destruct (wf_lookup c k p Hwf Hk) as (l1 & l2 & e & Hl & H1 & H2 & He & Hke).
    rewrite (Get_hit c w k p l1 l2 e) in HG by done.
    injection HG as _ <- <-. split; [|done]. by apply wf_front.
  - rewrite Get_miss in HG by done. by injection HG as _ <- <-.
Qed.

Lemma RemoveOldest_wf c w c' w' :
  wf c → RemoveOldest OnEvicted c w = Done tt c' w' →
  wf c' ∧ maxBytes c' = maxBytes c.
Proof.
  intros Hwf HR.
  destruct (RemoveOldest_cases c w Hwf)
    as [[_ HR']|(l1 & p & e & Hl & He & _ & HR')];
    rewrite HR' in HR; injection HR as <- <-; [done|].
  split; [|done]. by apply wf_without_oldest with p.
Qed.

Lemma RemoveOldest_returns c w :
  wf c → ∃ c' w', RemoveOldest OnEvicted c w = Done tt c' w'.
Proof.
  intros Hwf.
  destruct (RemoveOldest_cases c w Hwf)
    as [[_ HR]|(l1 & p & e & _ & _ & _ & HR)]; eauto.
Qed.

Lemma insert_or_update_wf c k v :
  wf c →
  ∃ c1, insert_or_update k v c = Some c1 ∧ wf c1 ∧ maxBytes c1 = maxBytes c.
Proof.
  intros Hwf.
  destruct (insert_or_update_cases c k v Hwf)
    as [(p & l1 & l2 & e & Hk & Hl & H1 & H2 & He & Hke & ->)|[Hk ->]];
    eexists; (split; [reflexivity|]); (split; [|done]).
  - by apply wf_update with k.
  - by apply wf_insert.
Qed.

Lemma evict_wf fuel c w c' w' :
  wf c → evict OnEvicted fuel c w = Done tt c' w' →
  wf c' ∧ maxBytes c' = maxBytes c ∧ over_budget c' = false.
Proof.
  revert c w. induction fuel as [|fuel IH]; intros c w Hwf Hev; [done|].
  simpl in Hev. destruct (over_budget c) eqn:Hob.
  - destruct (RemoveOldest_returns c w Hwf) as (c1 & w1 & HR).
    rewrite HR in Hev. destruct (RemoveOldest_wf _ _ _ _ Hwf HR) as [Hwf1 Hmb].
    destruct (IH _ _ Hwf1 Hev) as (? & ? & ?).
    split; [done|]. split; [congruence|done].
  - by injection Hev as <- <-.
Qed.

Lemma Add_wf fuel c w k v c' w' :
  wf c → Add OnEvicted fuel k v c w = Done tt c' w' →
  wf c' ∧ maxBytes c' = maxBytes c ∧ over_budget c' = false.
Proof.
  intros Hwf HA. unfold Add in HA.
  destruct (insert_or_update_wf c k v Hwf) as (c1 & Hc1 & Hwf1 & Hmb).
  rewrite Hc1 in HA. destruct (evict_wf _ _ _ _ _ Hwf1 HA) as (? & ? & ?).
  split; [done|]. split; [congruence|done].
Qed.

Lemma reachable_wf c : reachable OnEvicted c → wf c.
Proof.
  induction 1 as [mb _|k c w r c' w' _ IH HG|fuel k v c w c' w' _ IH HA
                 |c w c' w' _ IH HR|c w n c' w' _ IH HL].
  - apply wf_New.
  - by destruct (Get_wf _ _ _ _ _ _ IH HG).
  - by destruct (Add_wf _ _ _ _ _ _ _ IH HA).
  - by destruct (RemoveOldest_wf _ _ _ _ IH HR).
  - unfold Cache_Len in HL. by injection HL as _ <- _.
Qed.

(** *** The same, seen on the entries in recency order *)

Lemma elem_of_ents h l e : e ∈ ents h l ↔ ∃ p, p ∈ l ∧ h !! p = Some e.
Proof. apply list_elem_of_omap. Qed.

Lemma NoDup_keys_ents h (m : gmap string ptr) l :
  NoDup l →
  (∀ p, p ∈ l → ∃ e, h !! p = Some e ∧ m !! key e = Some p) →
  NoDup (key <$> ents h l).
Proof.
  induction l as [|p l IH]; intros Hnd Hall; [constructor|].
  apply NoDup_cons in Hnd as [Hp Hnd].
  destruct (Hall p) as (e & He & Hm); [left|].
  rewrite (ents_cons _ _ e), fmap_cons by done. apply NoDup_cons. split.
  - intros Hin. apply list_elem_of_fmap in Hin as (e' & Hk & He').
    apply elem_of_ents in He' as (q & Hq & Hq').
    destruct (Hall q) as (e'' & He'' & Hm'); [by right|].
    assert (e'' = e') as -> by congruence.
    rewrite <- Hk, Hm in Hm'. congruence.
  - apply IH; [done|]. intros q Hq. apply Hall. by right.
Qed.

Lemma keys_NoDup c : wf c → NoDup (keys c).
Proof.
  intros Hwf. apply NoDup_keys_ents with (cache c); apply Hwf.
Qed.

Lemma keys_index c k : wf c → k ∈ keys c ↔ is_Some (cache c !! k).
Proof.
  intros Hwf. unfold keys, entries. split.
  - intros Hin. apply list_elem_of_fmap in Hin as (e & -> & He).
    apply elem_of_ents in He as (p & Hp & He).
    destruct (wf_elem c Hwf p Hp) as (e' & He' & Hk).
    assert (e' = e) as -> by congruence. eauto.
  - intros [p Hk]. destruct (wf_index c Hwf k p Hk) as (Hp & e & He & <-).
    apply list_elem_of_fmap_2, elem_of_ents. eauto.
Qed.

Lemma keys_absent c k : wf c → cache c !! k = None ↔ k ∉ keys c.
Proof.
  intros Hwf. rewrite keys_index by done.
  rewrite eq_None_not_Some. done.
Qed.

Lemma entries_length c : wf c → length (entries c) = length (ll c).
Proof.
  intros Hwf. apply ents_length. intros p Hp.
  destruct (wf_elem c Hwf p Hp) as (e & He & _). eauto.
Qed.

Lemma entries_nil c : wf c → entries c = [] → ll c = [].
Proof.
  intros Hwf Hes. apply nil_length_inv.
  by rewrite <- entries_length, Hes.
Qed.

(** A split of the entries comes from a split of the list. *)
Lemma ents_split_inv h l es1 e es2 :
  (∀ p, p ∈ l → is_Some (h !! p)) →
  ents h l = es1 ++ e :: es2 →
  ∃ l1 p l2, l = l1 ++ p :: l2 ∧ ents h l1 = es1 ∧ h !! p = Some e
             ∧ ents h l2 = es2.
Proof.
  revert l. induction es1 as [|x es1 IH]; intros [|q l] Hall Hes;
    try discriminate.
  - destruct (Hall q) as [eq Hq]; [left|].
    rewrite (ents_cons _ _ eq) in Hes by done. simpl in Hes.
    injection Hes as -> Hes. by exists [], q, l.
  - destruct (Hall q) as [eq Hq]; [left|].
    rewrite (ents_cons _ _ eq) in Hes by done. simpl in Hes.
    injection Hes as -> Hes.
    destruct (IH l) as (l1 & p & l2 & -> & H1 & Hp & H2); [|done|].
    { intros p Hp. apply Hall. by right. }
    exists (q :: l1), p, l2. repeat split; try done.
    by rewrite (ents_cons _ _ x), H1.
Qed.

Lemma entries_split_inv c es1 e es2 :
  wf c → entries c = es1 ++ e :: es2 →
  ∃ l1 p l2, ll c = l1 ++ p :: l2 ∧ ents (heap c) l1 = es1
             ∧ heap c !! p = Some e ∧ ents (heap c) l2 = es2
             ∧ (p ∉ l1) ∧ (p ∉ l2) ∧ cache c !! key e = Some p.
Proof.
  intros Hwf Hes.
  destruct (ents_split_inv (heap c) (ll c) es1 e es2)
    as (l1 & p & l2 & Hl & H1 & Hp & H2); [|done|].
  { intros p Hp. destruct (wf_elem c Hwf p Hp) as (e' & He' & _). eauto. }
  assert (p ∈ ll c) as Hin by (rewrite Hl; apply elem_of_app; right; left).
  destruct (wf_elem c Hwf p Hin) as (e' & He' & Hk).
  assert (e' = e) as -> by congruence.
  pose proof (wf_nodup c Hwf) as Hnd. rewrite Hl in Hnd.
  apply NoDup_app in Hnd as (_ & Hd & Hnd2).
  apply NoDup_cons in Hnd2 as [Hn2 _].
  exists l1, p, l2. repeat split; try done.
  intros Hin1. apply (Hd _ Hin1). left.
Qed.

Lemma present_split c k p :
  wf c → cache c !! k = Some p →
  ∃ l1 l2 e, ll c = l1 ++ p :: l2 ∧ (p ∉ l1) ∧ (p ∉ l2)
             ∧ heap c !! p = Some e ∧ key e = k
             ∧ entries c = ents (heap c) l1 ++ e :: ents (heap c) l2.
Proof.
  intros Hwf Hk.
  destruct (wf_lookup c k p Hwf Hk) as (l1 & l2 & e & Hl & H1 & H2 & He & Hke).
  exists l1, l2, e. repeat split; try done.
  unfold entries. by rewrite Hl, ents_app, (ents_cons _ _ e).
Qed.

Lemma Get_present c w k p :
  wf c → cache c !! k = Some p →
  ∃ es1 e es2 c',
    entries c = es1 ++ e :: es2 ∧ key e = k ∧ heap c !! p = Some e
    ∧ Get k c w = Done (Some (value e), true) c' w
    ∧ entries c' = e :: es1 ++ es2
    ∧ nbytes c' = nbytes c ∧ maxBytes c' = maxBytes c
    ∧ cache c' = cache c ∧ heap c' = heap c
    ∧ length (ll c') = length (ll c) ∧ wf c'.
Proof.
  intros Hwf Hk.
  destruct (present_split c k p Hwf Hk)
    as (l1 & l2 & e & Hl & H1 & H2 & He & Hke & Hes).
  eexists _, e, _, _. split; [exact Hes|]. split; [done|]. split; [done|].
  split; [by apply (Get_hit c w k p l1 l2 e)|].
  split; [|split_and!; try done].
  - unfold entries. cbn [heap ll]. by rewrite (ents_cons _ _ e), ents_app.
  - cbn [ll]. rewrite Hl. cbn [length]. rewrite !length_app. cbn [length]. lia.
  - by apply wf_front.
Qed.

Lemma update_present c k v p :
  wf c → cache c !! k = Some p →
  ∃ es1 e es2 c1,
    entries c = es1 ++ e :: es2 ∧ key e = k ∧ heap c !! p = Some e
    ∧ insert_or_update k v c = Some c1
    ∧ entries c1 = Entry k v :: es1 ++ es2
    ∧ nbytes c1 = add64 (nbytes c) (sub64 (Len v) (Len (value e)))
    ∧ maxBytes c1 = maxBytes c ∧ cache c1 = cache c
    ∧ length (ll c1) = length (ll c) ∧ wf c1.
Proof.
  intros Hwf Hk.
  destruct (present_split c k p Hwf Hk)
    as (l1 & l2 & e & Hl & H1 & H2 & He & Hke & Hes).
  eexists _, e, _, _. split; [exact Hes|]. split; [done|]. split; [done|].
  split; [by apply (update_hit c k v p l1 l2 e)|].
  split; [|split_and!; try done].
  - unfold entries. cbn [heap ll].
    rewrite (ents_cons _ _ (Entry (key e) v)) by apply lookup_insert_eq.
    rewrite ents_app, !ents_insert_notin by done. by rewrite Hke.
  - cbn [ll]. rewrite Hl. cbn [length]. rewrite !length_app. cbn [length]. lia.
  - by apply wf_update with k.
Qed.

Lemma insert_absent c k v :
  wf c → cache c !! k = None →
  ∃ c1, insert_or_update k v c = Some c1
        ∧ entries c1 = Entry k v :: entries c
        ∧ nbytes c1 = add64 (nbytes c) (entry_size k v)
        ∧ maxBytes c1 = maxBytes c
        ∧ length (ll c1) = S (length (ll c)) ∧ wf c1.
Proof.
  intros Hwf Hk. eexists. split; [by apply insert_miss|].
  split; [|split_and!; try done].
  - unfold entries. cbn [heap ll].
    rewrite (ents_cons _ _ (Entry k v)) by apply lookup_insert_eq.
    by rewrite ents_insert_notin by by apply fresh_not_linked.
  - by apply wf_insert.
Qed.

Lemma RemoveOldest_none c w :
  wf c → entries c = [] → RemoveOldest OnEvicted c w = Done tt c w.
Proof. intros Hwf Hes. by apply RemoveOldest_empty, entries_nil. Qed.

Lemma RemoveOldest_last c w es e :
  wf c → entries c = es ++ [e] →
  ∃ c', RemoveOldest OnEvicted c w = Done tt c' (notified OnEvicted e c' w)
        ∧ entries c' = es
        ∧ nbytes c' = sub64 (nbytes c) (entry_size (key e) (value e))
        ∧ maxBytes c' = maxBytes c
        ∧ cache c' = delete (key e) (cache c)
        ∧ S (length (ll c')) = length (ll c) ∧ wf c'.
Proof.
  intros Hwf Hes.
  destruct (entries_split_inv c es e [] Hwf Hes)
    as (l1 & p & l2 & Hl & H1 & Hp & H2 & Hn1 & Hn2 & Hk).
  assert (l2 = []) as ->.
  { destruct l2 as [|q l2]; [done|]. exfalso.
    assert (q ∈ ll c) as Hq.
    { rewrite Hl. apply elem_of_app. right. right. left. }
    destruct (wf_elem c Hwf q Hq) as (eq & Heq & _).
    by rewrite (ents_cons _ _ eq) in H2. }
  exists (without_oldest c l1 e).
  split; [apply RemoveOldest_back with p; [apply Hwf|done|done]|].
  split; [done|]. split_and!; try done.
  - simpl. rewrite Hl, length_app. simpl. lia.
  - by apply wf_without_oldest with p.
Qed.

(** *** The eviction loop *)

Lemma over_budget_true c :
  over_budget c = true ↔ maxBytes c ≠ 0 ∧ maxBytes c < nbytes c.
Proof.
  unfold over_budget. rewrite andb_true_iff, negb_true_iff.
  rewrite Z.eqb_neq, Z.ltb_lt. done.
Qed.

Lemma over_budget_false c :
  over_budget c = false ↔ maxBytes c = 0 ∨ nbytes c ≤ maxBytes c.
Proof.
  unfold over_budget. rewrite andb_false_iff, negb_false_iff.
  rewrite Z.eqb_eq, Z.ltb_ge. done.
Qed.

Lemma evict_within fuel c w :
  over_budget c = false → evict OnEvicted (S fuel) c w = Done tt c w.
Proof. intros Hob. simpl. by rewrite Hob. Qed.

Lemma evict_step fuel c w c1 w1 :
  over_budget c = true → RemoveOldest OnEvicted c w = Done tt c1 w1 →
  evict OnEvicted (S fuel) c w = evict OnEvicted fuel c1 w1.
Proof. intros Hob HR. simpl. by rewrite Hob, HR. Qed.

Lemma evict_more fuel fuel' c w c' w' :
  evict OnEvicted fuel c w = Done tt c' w' → (fuel ≤ fuel')%nat →
  evict OnEvicted fuel' c w = Done tt c' w'.
Proof.
  revert fuel' c w. induction fuel as [|fuel IH]; intros fuel' c w Hev Hle;
    [done|].
  destruct fuel' as [|fuel']; [lia|]. simpl in *.
  destruct (over_budget c); [|done].
  destruct (RemoveOldest OnEvicted c w) as [[] c1 w1| |]; try done.
  apply IH; [done|lia].
Qed.

Lemma wf_empty_nbytes c : wf c → ll c = [] → nbytes c = 0.
Proof.
  intros Hwf Hl. rewrite (wf_bytes c Hwf). unfold total, entries.
  by rewrite Hl.
Qed.

Lemma evict_terminates fuel c w :
  wf c → 0 ≤ maxBytes c → (length (ll c) < fuel)%nat →
  ∃ c' w', evict OnEvicted fuel c w = Done tt c' w'.
Proof.
  revert c w. induction fuel as [|fuel IH]; intros c w Hwf Hmb Hlen; [lia|].
  destruct (over_budget c) eqn:Hob; [|by rewrite evict_within; eauto].
  apply over_budget_true in Hob as [Hne Hlt].
  destruct (RemoveOldest_cases c w Hwf)
    as [[Hl _]|(l1 & p & e & Hl & He & _ & HR)].
  - rewrite (wf_empty_nbytes c Hwf Hl) in Hlt. lia.
  - rewrite (evict_step _ _ _ _ _ ltac:(by apply over_budget_true) HR).
    apply IH.
    + by apply wf_without_oldest with p.
    + done.
    + simpl. rewrite Hl, length_app in Hlen. simpl in Hlen. lia.
Qed.

Lemma evict_empty fuel c w c' w' :
  wf c → entries c = [] → evict OnEvicted fuel c w = Done tt c' w' →
  c' = c ∧ w' = w.
Proof.
  revert c w. induction fuel as [|fuel IH]; intros c w Hwf Hes Hev; [done|].
  destruct (over_budget c) eqn:Hob.
  - rewrite (evict_step _ _ _ _ _ Hob (RemoveOldest_none c w Hwf Hes)) in Hev.
    by apply IH.
  - rewrite evict_within in Hev by done. by injection Hev as <- <-.
Qed.

Lemma snoc_or_nil {A} (xs : list A) : xs = [] ∨ ∃ ys y, xs = ys ++ [y].
Proof. destruct xs as [|y ys] using rev_ind; eauto. Qed.

(** The loop takes entries away from the back only. *)
Lemma evict_prefix fuel c w c' w' :
  wf c → evict OnEvicted fuel c w = Done tt c' w' →
  ∃ es, entries c = entries c' ++ es.
Proof.
  revert c w. induction fuel as [|fuel IH]; intros c w Hwf Hev; [done|].
  destruct (over_budget c) eqn:Hob.
  - destruct (snoc_or_nil (entries c)) as [Hes|(es & e & Hes)].
    + destruct (evict_empty _ _ _ _ _ Hwf Hes Hev) as [-> _].
      exists []. by rewrite app_nil_r.
    + destruct (RemoveOldest_last c w es e Hwf Hes)
        as (c1 & HR & Hes1 & _ & _ & _ & _ & Hwf1).
      rewrite (evict_step _ _ _ _ _ Hob HR) in Hev.
      destruct (IH _ _ Hwf1 Hev) as [es' Hes'].
      exists (es' ++ [e]). by rewrite Hes, <- Hes1, Hes', app_assoc.
  - rewrite evict_within in Hev by done. injection Hev as <- <-.
    exists []. by rewrite app_nil_r.
Qed.

(** *** Sizes that are not negative and fit in [int64] *)

Lemma len_nonneg k : 0 ≤ len k.
Proof. unfold len. lia. Qed.

Lemma sum_cost_nonneg (es : list (@entry V)) :
  Forall (λ e, 0 ≤ Len (value e)) es → 0 ≤ sumZ (cost <$> es).
Proof.
  induction 1 as [|e es He _ IH]; [done|].
  rewrite fmap_cons, sumZ_cons.
  unfold cost at 1. pose proof (len_nonneg (key e)). lia.
Qed.

Lemma total_nonneg c : nonneg_sizes c → 0 ≤ total c.
Proof. apply sum_cost_nonneg. Qed.

Lemma nbytes_exact c :
  wf c → min_int64 ≤ total c ≤ max_int64 → nbytes c = total c.
Proof. intros Hwf Hfit. rewrite (wf_bytes c Hwf). by apply wrap64_id. Qed.

Lemma nbytes_exact_nonneg c :
  wf c → nonneg_sizes c → total c ≤ max_int64 → nbytes c = total c.
Proof.
  intros Hwf Hnn Hfit. apply nbytes_exact; [done|].
  pose proof (total_nonneg c Hnn). unfold min_int64. lia.
Qed.

Lemma RemoveOldest_sane c w c' w' :
  wf c → nonneg_sizes c → total c ≤ max_int64 →
  RemoveOldest OnEvicted c w = Done tt c' w' →
  nonneg_sizes c' ∧ total c' ≤ max_int64.
Proof.
  intros Hwf Hnn Hfit HR.
  destruct (snoc_or_nil (entries c)) as [Hes|(es & e & Hes)].
  - rewrite RemoveOldest_none in HR by done. by injection HR as <- <-.
  - destruct (RemoveOldest_last c w es e Hwf Hes)
      as (c1 & HR1 & Hes1 & _).
    rewrite HR1 in HR. injection HR as <- <-.
    unfold nonneg_sizes, total in *. rewrite Hes in Hnn, Hfit.
    rewrite Hes1. apply Forall_app in Hnn as [Hnn He].
    split; [done|]. rewrite fmap_app, sumZ_app in Hfit.
    pose proof (sum_cost_nonneg [e] He). lia.
Qed.

Lemma insert_or_update_sane c k v :
  wf c → nonneg_sizes c → 0 ≤ Len v →
  total c + cost (Entry k v) ≤ max_int64 →
  ∃ c1 es, insert_or_update k v c = Some c1 ∧ wf c1
           ∧ maxBytes c1 = maxBytes c ∧ entries c1 = Entry k v :: es
           ∧ nonneg_sizes c1 ∧ total c1 ≤ max_int64.
Proof.
  intros Hwf Hnn Hv Hfit. destruct (cache c !! k) as [p|] eqn:Hk.
  - destruct (update_present c k v p Hwf Hk)
      as (es1 & e & es2 & c1 & Hes & Hke & _ & Hc1 & Hes1 & _ & Hmb & _ & _ & Hwf1).
    exists c1, (es1 ++ es2). split_and!; try done.
    + unfold nonneg_sizes in *. rewrite Hes1. rewrite Hes in Hnn.
      apply Forall_app in Hnn as [H1 H2]. apply Forall_cons in H2 as [_ H2].
      apply Forall_cons. split; [done|]. by apply Forall_app.
    + unfold nonneg_sizes, total in *. rewrite Hes1. rewrite Hes in Hnn, Hfit.
      apply Forall_app in Hnn as [H1 H2]. apply Forall_cons in H2 as [He H2].
      rewrite fmap_app, sumZ_app, fmap_cons, sumZ_cons in Hfit.
      rewrite fmap_cons, sumZ_cons, fmap_app, sumZ_app.
      pose proof (len_nonneg (key e)). unfold cost at 2 in Hfit. lia.
  - destruct (insert_absent c k v Hwf Hk)
      as (c1 & Hc1 & Hes1 & _ & Hmb & _ & Hwf1).
    exists c1, (entries c). split_and!; try done.
    + unfold nonneg_sizes. rewrite Hes1. by apply Forall_cons.
    + unfold total in *. rewrite Hes1, fmap_cons, sumZ_cons. lia.
Qed.

Lemma evict_diverges fuel c w :
  wf c → maxBytes c < 0 → nonneg_sizes c → total c ≤ max_int64 →
  evict OnEvicted fuel c w = Timeout.
Proof.
  revert c w. induction fuel as [|fuel IH]; intros c w Hwf Hmb Hnn Hfit;
    [done|].
  assert (over_budget c = true) as Hob.
  { apply over_budget_true. rewrite (nbytes_exact_nonneg c) by done.
    pose proof (total_nonneg c Hnn). lia. }
  destruct (RemoveOldest_returns c w Hwf) as (c1 & w1 & HR).
  rewrite (evict_step _ _ _ _ _ Hob HR).
  destruct (RemoveOldest_wf _ _ _ _ Hwf HR) as [Hwf1 Hmb1].
  destruct (RemoveOldest_sane _ _ _ _ Hwf Hnn Hfit HR) as [Hnn1 Hfit1].
  apply IH; try done. by rewrite Hmb1.
Qed.

(** An entry at the front that alone exceeds the budget goes, with
    everything behind it. *)
Lemma evict_oversized fuel c w c' w' e0 es :
  wf c → nonneg_sizes c → total c ≤ max_int64 →
  maxBytes c ≠ 0 → maxBytes c < cost e0 → entries c = e0 :: es →
  evict OnEvicted fuel c w = Done tt c' w' → entries c' = [].
Proof.
  revert c w es. induction fuel as [|fuel IH];
    intros c w es Hwf Hnn Hfit Hne Hlt Hes Hev; [done|].
  assert (over_budget c = true) as Hob.
  { apply over_budget_true. split; [done|].
    rewrite (nbytes_exact_nonneg c) by done.
    unfold nonneg_sizes, total in *. rewrite Hes in *.
    apply Forall_cons in Hnn as [_ Hnn].
    pose proof (sum_cost_nonneg es Hnn). rewrite fmap_cons, sumZ_cons. lia. }
  destruct (snoc_or_nil es) as [->|(es' & e & ->)].
  - destruct (RemoveOldest_last c w [] e0 Hwf Hes)
      as (c2 & HR & Hes2 & _ & _ & _ & _ & Hwf2).
    rewrite (evict_step _ _ _ _ _ Hob HR) in Hev.
    by destruct (evict_empty _ _ _ _ _ Hwf2 Hes2 Hev) as [-> _].
  - destruct (RemoveOldest_last c w (e0 :: es') e Hwf Hes)
      as (c2 & HR & Hes2 & _ & Hmb2 & _ & _ & Hwf2).
    rewrite (evict_step _ _ _ _ _ Hob HR) in Hev.
    destruct (RemoveOldest_sane _ _ _ _ Hwf Hnn Hfit HR) as [Hnn2 Hfit2].
    eapply (IH c2 _ es'); try done; congruence.
Qed.

(** *** [Add] as a whole *)

Lemma insert_or_update_length c k v c1 :
  wf c → insert_or_update k v c = Some c1 →
  (length (ll c1) ≤ S (length (ll c)))%nat.
Proof.
  intros Hwf Hc1. destruct (cache c !! k) as [p|] eqn:Hk.
  - destruct (update_present c k v p Hwf Hk)
      as (_ & _ & _ & c2 & _ & _ & _ & Hc2 & _ & _ & _ & _ & Hlen & _).
    assert (c2 = c1) as -> by congruence. lia.
  - destruct (insert_absent c k v Hwf Hk) as (c2 & Hc2 & _ & _ & _ & Hlen & _).
    assert (c2 = c1) as -> by congruence. lia.
Qed.

Lemma Add_returns c k v w :
  wf c → 0 ≤ maxBytes c →
  ∃ c' w', ∀ fuel, (S (length (ll c)) < fuel)%nat →
                   Add OnEvicted fuel k v c w = Done tt c' w'.
Proof.
  intros Hwf Hmb.
  destruct (insert_or_update_wf c k v Hwf) as (c1 & Hc1 & Hwf1 & Hmb1).
  pose proof (insert_or_update_length c k v c1 Hwf Hc1) as Hlen.
  destruct (evict_terminates (S (S (length (ll c)))) c1 w Hwf1)
    as (c' & w' & Hev); [lia|lia|].
  exists c', w'. intros fuel Hfuel. unfold Add. rewrite Hc1.
  apply evict_more with (S (S (length (ll c)))); [done|lia].
Qed.

Lemma Add_within_budget fuel c k v w c' w' :
  wf c → maxBytes c ≠ 0 → Add OnEvicted fuel k v c w = Done tt c' w' →
  nbytes c' ≤ maxBytes c'.
Proof.
  intros Hwf Hne HA. destruct (Add_wf _ _ _ _ _ _ _ Hwf HA) as (_ & Hmb & Hob).
  apply over_budget_false in Hob as [Hz|Hle]; [congruence|done].
Qed.

Lemma Add_oversized fuel c k v w c' w' :
  wf c → nonneg_sizes c → 0 ≤ Len v →
  total c + cost (Entry k v) ≤ max_int64 →
  maxBytes c ≠ 0 → maxBytes c < cost (Entry k v) →
  Add OnEvicted fuel k v c w = Done tt c' w' →
  entries c' = [].
Proof.
  intros Hwf Hnn Hv Hfit Hne Hlt HA.
  destruct (insert_or_update_sane c k v Hwf Hnn Hv Hfit)
    as (c1 & es & Hc1 & Hwf1 & Hmb1 & Hes1 & Hnn1 & Hfit1).
  unfold Add in HA. rewrite Hc1 in HA.
  eapply (evict_oversized fuel c1 w c' w' (Entry k v) es); try done;
    congruence.
Qed.

Lemma Add_diverges fuel c k v w :
  wf c → maxBytes c < 0 → nonneg_sizes c → 0 ≤ Len v →
  total c + cost (Entry k v) ≤ max_int64 →
  Add OnEvicted fuel k v c w = Timeout.
Proof.
  intros Hwf Hmb Hnn Hv Hfit.
  destruct (insert_or_update_sane c k v Hwf Hnn Hv Hfit)
    as (c1 & es & Hc1 & Hwf1 & Hmb1 & _ & Hnn1 & Hfit1).
  unfold Add. rewrite Hc1. apply evict_diverges; try done. congruence.
Qed.

Lemma wf_no_entries c : wf c → entries c = [] → ll c = [] ∧ cache c = ∅.
Proof.
  intros Hwf Hes. pose proof (entries_nil c Hwf Hes) as Hl.
  split; [done|]. apply map_empty. intros k.
  destruct (cache c !! k) as [p|] eqn:Hk; [|done].
  destruct (wf_index c Hwf k p Hk) as [Hp _]. rewrite Hl in Hp.
  by apply elem_of_nil in Hp.
Qed.

Lemma Get_frame c w k r c' w' :
  Get k c w = Done r c' w' →
  nbytes c' = nbytes c ∧ maxBytes c' = maxBytes c ∧ heap c' = heap c
  ∧ cache c' = cache c ∧ w' = w.
Proof.
  unfold Get. intros HG.
  destruct (cache c !! k) as [p|]; [|by injection HG as _ <- <-].
  simpl in HG. destruct (heap c !! p); [|done]. by injection HG as _ <- <-.
Qed.

Lemma RemoveOldest_total c w c' w' :
  wf c → nonneg_sizes c → RemoveOldest OnEvicted c w = Done tt c' w' →
  total c' ≤ total c.
Proof.
  intros Hwf Hnn HR.
  destruct (snoc_or_nil (entries c)) as [Hes|(es & e & Hes)].
  - rewrite RemoveOldest_none in HR by done. injection HR as <- <-. lia.
  - destruct (RemoveOldest_last c w es e Hwf Hes) as (c1 & HR1 & Hes1 & _).
    rewrite HR1 in HR. injection HR as <- <-.
    unfold nonneg_sizes, total in *. rewrite Hes in *. rewrite Hes1.
    apply Forall_app in Hnn as [_ He].
    rewrite fmap_app, sumZ_app. pose proof (sum_cost_nonneg [e] He). lia.
Qed.

Lemma RemoveOldest_lowers c w c' w' :
  wf c → nonneg_sizes c → total c ≤ max_int64 →
  RemoveOldest OnEvicted c w = Done tt c' w' →
  nbytes c' ≤ nbytes c ∧ maxBytes c' = maxBytes c.
Proof.
  intros Hwf Hnn Hfit HR.
  destruct (RemoveOldest_wf _ _ _ _ Hwf HR) as [Hwf' Hmb].
  destruct (RemoveOldest_sane _ _ _ _ Hwf Hnn Hfit HR) as [Hnn' Hfit'].
  split; [|done]. rewrite !nbytes_exact_nonneg by done.
  by apply RemoveOldest_total with w w'.
Qed.

Lemma Add_no_eviction fuel c k v w c1 :
  insert_or_update k v c = Some c1 → over_budget c1 = false →
  Add OnEvicted (S fuel) k v c w = Done tt c1 w.
Proof. intros Hc1 Hob. unfold Add. rewrite Hc1. by apply evict_within. Qed.

Lemma unbounded_within c : maxBytes c = 0 → over_budget c = false.
Proof. intros Hmb. apply over_budget_false. by left. Qed.

Lemma add_all_unbounded fuel kvs c w :
  wf c → maxBytes c = 0 → NoDup kvs.*1 →
  (∀ k, k ∈ kvs.*1 → k ∉ keys c) →
  ∃ c', add_all OnEvicted (S fuel) kvs c w = Done tt c' w
        ∧ wf c' ∧ maxBytes c' = 0
        ∧ keys c' = reverse kvs.*1 ++ keys c
        ∧ length (ll c') = (length kvs + length (ll c))%nat.
Proof.
  revert c. induction kvs as [|[k v] kvs IH]; intros c Hwf Hmb Hnd Hdisj.
  - exists c. by split_and!.
  - rewrite fmap_cons in Hnd, Hdisj. cbn [fst] in Hnd, Hdisj.
    apply NoDup_cons in Hnd as [Hk Hnd].
    assert (cache c !! k = None) as Habs.
    { apply keys_absent; [done|]. apply Hdisj. left. }
    destruct (insert_absent c k v Hwf Habs)
      as (c1 & Hc1 & Hes1 & _ & Hmb1 & Hlen1 & Hwf1).
    assert (maxBytes c1 = 0) as Hmb1' by congruence.
    destruct (IH c1 Hwf1 Hmb1' Hnd) as (c' & Hrun & Hwf' & Hmb' & Hks & Hlen).
    { intros k' Hk'. unfold keys. rewrite Hes1, fmap_cons. cbn [key].
      apply not_elem_of_cons. split; [by intros ->|].
      apply Hdisj. by right. }
    exists c'. split_and!; try done.
    + cbn [add_all].
      by rewrite (Add_no_eviction fuel c k v w c1 Hc1 (unbounded_within c1 Hmb1')).
    + rewrite Hks. unfold keys at 1. rewrite Hes1, fmap_cons. cbn [key].
      rewrite fmap_cons, reverse_cons. cbn [fst]. by rewrite <- app_assoc.
    + rewrite Hlen, Hlen1. cbn [length]. lia.
Qed.

(** *** The recency order of the keys *)

Lemma before_sublist a b (ks : list string) :
  before a b ks ↔ [a; b] `sublist_of` ks.
Proof.
  unfold before. rewrite sublist_cons_l. split.
  - intros (l1 & l2 & l3 & ->). exists l1, (l2 ++ b :: l3). split; [done|].
    apply sublist_cons_l. exists l2, l3. split; [done|]. apply sublist_nil_l.
  - intros (k1 & k2 & -> & Hb). apply sublist_cons_l in Hb as (k3 & k4 & -> & _).
    by exists k1, k3, k4.
Qed.

Lemma before_in_l a b (ks : list string) : before a b ks → a ∈ ks.
Proof.
  intros (l1 & l2 & l3 & ->). apply elem_of_app. right. left.
Qed.

Lemma before_cons a b k (ks : list string) :
  before a b ks → before a b (k :: ks).
Proof. rewrite !before_sublist. apply sublist_cons. Qed.

Lemma before_front a b (ks : list string) : b ∈ ks → before a b (a :: ks).
Proof.
  intros Hb. apply list_elem_of_split in Hb as (l2 & l3 & ->).
  by exists [], l2, l3.
Qed.

Lemma before_move_front a b k (ks1 ks2 : list string) :
  k ≠ a → k ≠ b → before a b (ks1 ++ k :: ks2) →
  before a b (k :: ks1 ++ ks2).
Proof.
  intros Ha Hb. rewrite !before_sublist, sublist_app_cons_r.
  intros [Hsub|(l1 & l2 & Heq & _ & _)]; [by apply sublist_cons|].
  destruct l1 as [|x [|y [|z l1]]]; simplify_eq/=; done.
Qed.

Lemma before_prefix a b (ks ks' : list string) :
  NoDup (ks ++ ks') → b ∈ ks → before a b (ks ++ ks') → before a b ks.
Proof.
  intros Hnd Hb. rewrite !before_sublist, sublist_app_r.
  intros (l1 & l2 & Heq & H1 & H2).
  apply NoDup_app in Hnd as (_ & Hdisj & _).
  destruct l1 as [|x [|y [|z l1]]]; simplify_eq/=; [| |done].
  - exfalso. eapply Hdisj; [exact Hb|].
    eapply elem_of_sublist; [|exact H2]. right. left.
  - exfalso. eapply Hdisj; [exact Hb|].
    eapply elem_of_sublist; [|exact H2]. left.
Qed.

Lemma before_survives a b k (ks : list string) :
  before a b (ks ++ [k]) → a ∈ ks.
Proof.
  rewrite before_sublist, sublist_app_r.
  intros (l1 & l2 & Heq & H1 & H2).
  destruct l1 as [|x [|y [|z l1]]]; simplify_eq/=.
  - apply sublist_length in H2. simpl in H2. lia.
  - eapply elem_of_sublist; [|exact H1]. left.
  - eapply elem_of_sublist; [|exact H1]. left.
Qed.

Lemma Get_keys c w k r c' w' :
  wf c → Get k c w = Done r c' w' →
  wf c' ∧ (keys c' = keys c
           ∨ ∃ ks1 ks2, keys c = ks1 ++ k :: ks2 ∧ keys c' = k :: ks1 ++ ks2).
Proof.
  intros Hwf HG. destruct (cache c !! k) as [p|] eqn:Hk.
  - destruct (Get_present c w k p Hwf Hk)
      as (es1 & e & es2 & c1 & Hes & Hke & _ & HG1 & Hes1 & _ & _ & _ & _ & _
          & Hwf1).
    rewrite HG1 in HG. injection HG as _ <- _. split; [done|]. right.
    exists (key <$> es1), (key <$> es2). unfold keys.
    rewrite Hes, Hes1, fmap_cons, !fmap_app, fmap_cons, Hke. done.
  - rewrite Get_miss in HG by done. injection HG as _ <- _. auto.
Qed.

Lemma insert_or_update_keys c k v :
  wf c →
  ∃ c1, insert_or_update k v c = Some c1 ∧ wf c1
        ∧ maxBytes c1 = maxBytes c
        ∧ (keys c1 = k :: keys c
           ∨ ∃ ks1 ks2, keys c = ks1 ++ k :: ks2
                        ∧ keys c1 = k :: ks1 ++ ks2).
Proof.
  intros Hwf. destruct (cache c !! k) as [p|] eqn:Hk.
  - destruct (update_present c k v p Hwf Hk)
      as (es1 & e & es2 & c1 & Hes & Hke & _ & Hc1 & Hes1 & _ & Hmb & _ & _
          & Hwf1).
    exists c1. split_and!; try done. right.
    exists (key <$> es1), (key <$> es2). unfold keys.
    rewrite Hes, Hes1, fmap_cons, !fmap_app, fmap_cons, Hke. done.
  - destruct (insert_absent c k v Hwf Hk)
      as (c1 & Hc1 & Hes1 & _ & Hmb & _ & Hwf1).
    exists c1. split_and!; try done. left. unfold keys. by rewrite Hes1.
Qed.

Lemma RemoveOldest_keys c w c' w' :
  wf c → RemoveOldest OnEvicted c w = Done tt c' w' →
  wf c' ∧ (keys c' = keys c ∨ ∃ k, keys c = keys c' ++ [k]).
Proof.
  intros Hwf HR. destruct (snoc_or_nil (entries c)) as [Hes|(es & e & Hes)].
  - rewrite RemoveOldest_none in HR by done. injection HR as <- _. auto.
  - destruct (RemoveOldest_last c w es e Hwf Hes)
      as (c1 & HR1 & Hes1 & _ & _ & _ & _ & Hwf1).
    rewrite HR1 in HR. injection HR as <- _. split; [done|]. right.
    exists (key e). unfold keys. by rewrite Hes, Hes1, fmap_app.
Qed.

Lemma evict_keys fuel c w c' w' :
  wf c → evict OnEvicted fuel c w = Done tt c' w' →
  wf c' ∧ ∃ ks, keys c = keys c' ++ ks.
Proof.
  intros Hwf Hev. destruct (evict_wf _ _ _ _ _ Hwf Hev) as (Hwf' & _ & _).
  split; [done|]. destruct (evict_prefix _ _ _ _ _ Hwf Hev) as [es Hes].
  exists (key <$> es). unfold keys. by rewrite Hes, fmap_app.
Qed.

Lemma ahead_prefix a b c c' ks :
  wf c → keys c = keys c' ++ ks → ahead a b c → ahead a b c'.
Proof.
  intros Hwf Hks Ha Hb. apply before_prefix with ks; [|done|].
  - rewrite <- Hks. by apply keys_NoDup.
  - rewrite <- Hks. apply Ha. rewrite Hks. apply elem_of_app. by left.
Qed.

Lemma ahead_access a b k c c1 :
  k ≠ a → k ≠ b →
  (keys c1 = keys c
   ∨ keys c1 = k :: keys c
   ∨ ∃ ks1 ks2, keys c = ks1 ++ k :: ks2 ∧ keys c1 = k :: ks1 ++ ks2) →
  ahead a b c → ahead a b c1.
Proof.
  intros Hka Hkb [Hks|[Hks|(ks1 & ks2 & Hks & Hks1)]] Ha Hb.
  - rewrite Hks in *. by apply Ha.
  - rewrite Hks in *. apply before_cons, Ha.
    apply elem_of_cons in Hb as [->|Hb]; done.
  - rewrite Hks1 in *. apply before_move_front; [done..|].
    rewrite <- Hks. apply Ha. rewrite Hks.
    apply elem_of_cons in Hb as [->|Hb]; [done|].
    apply elem_of_app in Hb as [Hb|Hb]; apply elem_of_app; [by left|].
    right. by right.
Qed.

Lemma untouched_ahead a b c w c' w' :
  untouched OnEvicted a b c w c' w' → wf c → ahead a b c →
  wf c' ∧ ahead a b c'.
Proof.
  induction 1 as [c w|k c w r c1 w1 c2 w2 Hka Hkb HG _ IH
                 |fuel k v c w c1 w1 c2 w2 Hka Hkb HA _ IH
                 |c w c1 w1 c2 w2 HR _ IH|c w n c1 w1 c2 w2 HL _ IH];
    intros Hwf Ha.
  - done.
  - destruct (Get_keys _ _ _ _ _ _ Hwf HG) as [Hwf1 Hks].
    apply IH; [done|]. apply (ahead_access a b k c); [done..| |done].
    destruct Hks as [?|?]; auto.
  - unfold Add in HA.
    destruct (insert_or_update_keys c k v Hwf) as (c0 & Hc0 & Hwf0 & _ & Hks).
    rewrite Hc0 in HA. destruct (evict_keys _ _ _ _ _ Hwf0 HA) as [Hwf1 [ks Hpre]].
    apply IH; [done|]. apply (ahead_prefix a b c0 c1 ks); [done..|].
    apply (ahead_access a b k c); [done..| |done].
    destruct Hks as [?|?]; auto.
  - destruct (RemoveOldest_keys _ _ _ _ Hwf HR) as [Hwf1 Hks].
    apply IH; [done|]. destruct Hks as [Hks|[k Hks]].
    + intros Hb. rewrite Hks in *. by apply Ha.
    + by apply (ahead_prefix a b c c1 [k]).
  - unfold Cache_Len in HL. injection HL as _ <- _. by apply IH.
Qed.

Lemma access_front a b (ks ks' l : list string) :
  a :: l = ks ++ ks' → b ∈ ks → b ≠ a → before a b ks.
Proof.
  intros Heq Hb Hne. destruct ks as [|x ks]; [by apply elem_of_nil in Hb|].
  injection Heq as <- _. apply before_front.
  apply elem_of_cons in Hb as [->|Hb]; done.
Qed.

Lemma holds_within c mb :
  wf c → maxBytes c = mb → holds mb (entries c) → over_budget c = false.
Proof.
  intros Hwf Hmb Hh. apply over_budget_false. right.
  by rewrite (wf_bytes c Hwf), Hmb.
Qed.

Lemma holds_exact mb (es : list (@entry V)) :
  Forall (λ e, 0 ≤ Len (value e)) es → sumZ (cost <$> es) ≤ max_int64 →
  holds mb es ↔ sumZ (cost <$> es) ≤ mb.
Proof.
  intros Hnn Hfit. unfold holds. rewrite wrap64_id; [done|].
  pose proof (sum_cost_nonneg es Hnn). unfold min_int64. lia.
Qed.

(** [Add("x", v1); Add("y", v2); Get("x"); Add("z", v3)] on a new
    cache whose budget holds two of the entries and not three. *)
Lemma hit_updates_recency mb v1 v2 v3 w :
  mb ≠ 0 →
  holds mb [Entry "x" v1] →
  holds mb [Entry "y" v2; Entry "x" v1] →
  ¬ holds mb [Entry "z" v3; Entry "x" v1; Entry "y" v2] →
  holds mb [Entry "z" v3; Entry "x" v1] →
  ∃ c1 c2 c3 c4,
    Add OnEvicted 1 "x" v1 (New mb) w = Done tt c1 w
    ∧ Add OnEvicted 1 "y" v2 c1 w = Done tt c2 w
    ∧ Get "x" c2 w = Done (Some v1, true) c3 w
    ∧ Add OnEvicted 2 "z" v3 c3 w
      = Done tt c4 (notified OnEvicted (Entry "y" v2) c4 w)
    ∧ entries c4 = [Entry "z" v3; Entry "x" v1].
Proof.
  intros Hne Hx Hyx Hzxy Hzx.
  set (X := Entry "x" v1) in *. set (Y := Entry "y" v2) in *.
  set (Z := Entry "z" v3) in *.
  (* Add("x", v1) *)
  destruct (insert_absent (New mb) "x" v1 (wf_New mb) (lookup_empty _))
    as (c1 & Hc1 & Hes1 & _ & Hmb1 & _ & Hwf1).
  change (entries (New mb)) with (@nil (@entry V)) in Hes1. fold X in Hes1.
  change (maxBytes (New mb)) with mb in Hmb1.
  assert (over_budget c1 = false) as Hob1.
  { apply (holds_within c1 mb); [done..|]. by rewrite Hes1. }
  (* Add("y", v2) *)
  assert (cache c1 !! "y" = None) as Hy.
  { apply keys_absent; [done|]. unfold keys. rewrite Hes1. simpl.
    by intros ?%list_elem_of_singleton. }
  destruct (insert_absent c1 "y" v2 Hwf1 Hy)
    as (c2 & Hc2 & Hes2 & _ & Hmb2 & _ & Hwf2).
  rewrite Hes1 in Hes2. fold Y in Hes2. rewrite Hmb1 in Hmb2.
  assert (over_budget c2 = false) as Hob2.
  { apply (holds_within c2 mb); [done..|]. by rewrite Hes2. }
  (* Get("x") *)
  assert (is_Some (cache c2 !! "x")) as [p Hp].
  { apply keys_index; [done|]. unfold keys. rewrite Hes2. simpl.
    right. left. }
  destruct (Get_present c2 w "x" p Hwf2 Hp)
    as (es1 & e & es2 & c3 & Hes & Hke & _ & HG & Hes3 & _ & Hmb3 & _ & _ & _
        & Hwf3).
  rewrite Hes2 in Hes. rewrite Hmb2 in Hmb3.
  assert (es1 = [Y] ∧ e = X ∧ es2 = []) as (-> & -> & ->).
  { destruct es1 as [|? [|? [|? ?]]]; simplify_eq/=; done. }
  simpl in Hes3.
  (* Add("z", v3) *)
  assert (cache c3 !! "z" = None) as Hz.
  { apply keys_absent; [done|]. unfold keys. rewrite Hes3. simpl.
    intros Hin. apply elem_of_cons in Hin as [?|Hin]; [done|].
    by apply list_elem_of_singleton in Hin. }
  destruct (insert_absent c3 "z" v3 Hwf3 Hz)
    as (c3' & Hc3' & Hes3' & _ & Hmb3' & _ & Hwf3').
  rewrite Hes3 in Hes3'. fold Z in Hes3'. rewrite Hmb3 in Hmb3'.
  assert (over_budget c3' = true) as Hob3.
  { apply over_budget_true. rewrite Hmb3'. split; [done|].
    rewrite (wf_bytes c3' Hwf3'). unfold total. rewrite Hes3'.
    unfold holds in Hzxy. lia. }
  destruct (RemoveOldest_last c3' w [Z; X] Y Hwf3' Hes3')
    as (c4 & HR & Hes4 & _ & Hmb4 & _ & _ & Hwf4).
  rewrite Hmb3' in Hmb4.
  assert (over_budget c4 = false) as Hob4.
  { apply (holds_within c4 mb); [done..|]. by rewrite Hes4. }
  exists c1, c2, c3, c4. split_and!.
  - by apply Add_no_eviction.
  - by apply Add_no_eviction.
  - exact HG.
  - unfold Add. rewrite Hc3'. rewrite (evict_step _ _ _ _ _ Hob3 HR).
    by apply evict_within.
  - exact Hes4.
Qed.

End Invariant.

(** ** The claims *)

Section Claims.

Context {V : Type} `{!Value V} {W : Type}.
Variable OnEvicted : option (string → V → @Cache V → W → W).

(** C1 (amended).  On a reachable cache with [maxBytes != 0], after an
    [Add] that returned, the running total [nbytes] is [<= maxBytes];
    so the exact sum of (key length + value size) over the resident
    entries is [<= maxBytes] whenever that sum lies in the [int64]
    range.  When the sizes are not negative and the sum with the added
    entry fits in [int64], an added entry that alone exceeds [maxBytes]
    leaves the cache with zero entries.  With [maxBytes > 0] every [Add]
    returns, given fuel above the number of entries plus one. *)
Theorem C1_capacity_after_Add (c : @Cache V) k v w :
  reachable OnEvicted c → maxBytes c ≠ 0 →
  (0 < maxBytes c →
   ∃ c' w', ∀ fuel, (S (length (ll c)) < fuel)%nat →
                    Add OnEvicted fuel k v c w = Done tt c' w')
  ∧ (∀ fuel c' w',
       Add OnEvicted fuel k v c w = Done tt c' w' →
       nbytes c' ≤ maxBytes c'
       ∧ (min_int64 ≤ total c' ≤ max_int64 → total c' ≤ maxBytes c')
       ∧ (nonneg_sizes c → 0 ≤ Len v →
          total c + cost (Entry k v) ≤ max_int64 →
          maxBytes c < cost (Entry k v) →
          entries c' = [] ∧ ll c' = [] ∧ cache c' = ∅)).
Proof.
  intros Hr Hne. pose proof (reachable_wf OnEvicted c Hr) as Hwf. split.
  - intros Hpos. apply Add_returns; [done|lia].
  - intros fuel c' w' HA.
    destruct (Add_wf _ _ _ _ _ _ _ _ Hwf HA) as (Hwf' & Hmb & _).
    pose proof (Add_within_budget _ _ _ _ _ _ _ _ Hwf Hne HA) as Hle.
    split_and!.
    + done.
    + intros Hfit. by rewrite <- (nbytes_exact c' Hwf' Hfit).
    + intros Hnn Hv Hfit Hlt.
      pose proof (Add_oversized _ _ _ _ _ _ _ _ Hwf Hnn Hv Hfit Hne Hlt HA)
        as Hes.
      split; [done|]. by apply wf_no_entries.
Qed.

(** C2 (amended).  On a reachable cache with [maxBytes != 0]:
    after an [Add] that returned, [nbytes <= maxBytes], and there is no
    exemption for an entry that alone exceeds the budget: with sizes
    that are not negative and a sum that fits in [int64], the entry
    just inserted is evicted too and no entry is left.  [Get] and [Len]
    leave [nbytes] and [maxBytes] as they are, and [RemoveOldest] does
    not raise [nbytes] for such sizes. *)
Theorem C2_budget_without_exemption (c : @Cache V) :
  reachable OnEvicted c → maxBytes c ≠ 0 →
  (∀ fuel k v w c' w',
     Add OnEvicted fuel k v c w = Done tt c' w' →
     nbytes c' ≤ maxBytes c'
     ∧ (nonneg_sizes c → 0 ≤ Len v →
        total c + cost (Entry k v) ≤ max_int64 →
        maxBytes c < cost (Entry k v) →
        (k ∉ keys c') ∧ length (ll c') = 0%nat))
  ∧ (∀ k (w : W) r c' w', Get k c w = Done r c' w' →
                          nbytes c' = nbytes c ∧ maxBytes c' = maxBytes c)
  ∧ (∀ (w : W) n c' w', Cache_Len c w = Done n c' w' → c' = c)
  ∧ (∀ w c' w', RemoveOldest OnEvicted c w = Done tt c' w' →
                nonneg_sizes c → total c ≤ max_int64 →
                nbytes c' ≤ nbytes c ∧ maxBytes c' = maxBytes c).
Proof.
  intros Hr Hne. pose proof (reachable_wf OnEvicted c Hr) as Hwf.
  split_and!.
  - intros fuel k v w c' w' HA. split.
    + exact (Add_within_budget _ _ _ _ _ _ _ _ Hwf Hne HA).
    + intros Hnn Hv Hfit Hlt.
      pose proof (Add_oversized _ _ _ _ _ _ _ _ Hwf Hnn Hv Hfit Hne Hlt HA)
        as Hes.
      destruct (Add_wf _ _ _ _ _ _ _ _ Hwf HA) as (Hwf' & _ & _).
      split.
      * unfold keys. rewrite Hes. apply not_elem_of_nil.
      * by rewrite <- entries_length, Hes.
  - intros k w r c' w' HG. by destruct (Get_frame _ _ _ _ _ _ HG) as (? & ? & _).
  - intros w n c' w' HL. unfold Cache_Len in HL. by injection HL as _ <- _.
  - intros w c' w' HR Hnn Hfit.
    exact (RemoveOldest_lowers _ _ _ _ _ Hwf Hnn Hfit HR).
Qed.

(** C3 (amended).  On a reachable cache with [maxBytes >= 0] every
    [Add] returns, given fuel above the number of entries plus one.
    With [maxBytes < 0], when the resident and the added value sizes
    are not negative and their sum fits in [int64], [Add] returns for
    no amount of fuel: [nbytes] stays [>= 0 > maxBytes], and on the
    empty list [RemoveOldest] changes nothing. *)
Theorem C3_Add_termination (c : @Cache V) k v w :
  reachable OnEvicted c →
  (0 ≤ maxBytes c →
   ∃ c' w', ∀ fuel, (S (length (ll c)) < fuel)%nat →
                    Add OnEvicted fuel k v c w = Done tt c' w')
  ∧ (maxBytes c < 0 → nonneg_sizes c → 0 ≤ Len v →
     total c + cost (Entry k v) ≤ max_int64 →
     ∀ fuel, Add OnEvicted fuel k v c w = Timeout).
Proof.
  intros Hr. pose proof (reachable_wf OnEvicted c Hr) as Hwf. split.
  - intros Hmb. by apply Add_returns.
  - intros Hmb Hnn Hv Hfit fuel. by apply Add_diverges.
Qed.

(** C4 (amended).  In every reachable cache the index holds exactly the
    keys of the recency order, each once, and points at the element
    that holds the key; the index and the order have the same number of
    members; and [nbytes] is the sum of (key length + value size) over
    the entries of the order reduced to 64 bits, hence that exact sum
    whenever it lies in the [int64] range.  Reachable caches are closed
    under [Get], [Add], [RemoveOldest] and [Len], so every operation
    keeps these properties. *)
Theorem C4_index_and_bytes_consistent (c : @Cache V) :
  reachable OnEvicted c → consistent c.
Proof.
  intros Hr. pose proof (reachable_wf OnEvicted c Hr) as Hwf.
  unfold consistent.
  assert (length (keys c) = length (ll c)) as Hlen.
  { unfold keys. by rewrite length_fmap, entries_length. }
  split_and!.
  - by apply keys_NoDup.
  - intros k. by apply keys_index.
  - apply Hwf.
  - by rewrite Hlen, (wf_card c Hwf).
  - done.
  - apply Hwf.
  - by apply nbytes_exact.
Qed.

(** C5.  The recency order decides who is evicted first.
    (1) After a [Get] that hits [a], or an [Add] of [a] that returned,
    [a] is nearer the front than every other resident key.
    (2) If [a] is nearer the front than [b], then after any run of
    calls that contains no [Get] or [Add] of [a] or [b], as long as [b]
    is resident, [a] is resident and nearer the front than [b].
    (3) If [a] is nearer the front than [b], a [RemoveOldest] leaves [a]
    resident: the call that evicts [a] comes strictly after the one
    that evicts [b].
    (4) [Add("x", v1); Add("y", v2); Get("x"); Add("z", v3)] on a new
    cache whose budget holds ["x"], ["x"] with either of the others,
    and not the three: the last [Add] evicts ["y"], calling the
    callback on it once, and leaves ["z"] and ["x"]. *)
Theorem C5_recency_order :
  (∀ (c : @Cache V) a (w : W) r c' w',
     reachable OnEvicted c → a ∈ keys c → Get a c w = Done r c' w' →
     ∀ b, b ∈ keys c' → b ≠ a → before a b (keys c'))
  ∧ (∀ (c : @Cache V) a v (w : W) fuel c' w',
       reachable OnEvicted c →
       Add OnEvicted fuel a v c w = Done tt c' w' →
       ∀ b, b ∈ keys c' → b ≠ a → before a b (keys c'))
  ∧ (∀ (c : @Cache V) a b (w : W) c' w',
       reachable OnEvicted c → before a b (keys c) →
       untouched OnEvicted a b c w c' w' →
       b ∈ keys c' → before a b (keys c'))
  ∧ (∀ (c : @Cache V) a b (w : W) c' w',
       reachable OnEvicted c → before a b (keys c) →
       RemoveOldest OnEvicted c w = Done tt c' w' →
       a ∈ keys c')
  ∧ (∀ mb (v1 v2 v3 : V) (w : W),
       mb ≠ 0 →
       holds mb [Entry "x" v1] →
       holds mb [Entry "y" v2; Entry "x" v1] →
       ¬ holds mb [Entry "z" v3; Entry "x" v1; Entry "y" v2] →
       holds mb [Entry "z" v3; Entry "x" v1] →
       ∃ c1 c2 c3 c4,
         Add OnEvicted 1 "x" v1 (New mb) w = Done tt c1 w
         ∧ Add OnEvicted 1 "y" v2 c1 w = Done tt c2 w
         ∧ Get "x" c2 w = Done (Some v1, true) c3 w
         ∧ Add OnEvicted 2 "z" v3 c3 w
           = Done tt c4 (match OnEvicted with
                         | Some f => f "y" v2 c4 w
                         | None => w
                         end)
         ∧ keys c4 = ["z"; "x"]).
Proof.
  split_and!.
  - intros c a w r c' w' Hr Ha HG b Hb Hne.
    pose proof (reachable_wf OnEvicted c Hr) as Hwf.
    apply keys_index in Ha as [p Hp]; [|done].
    destruct (Get_present c w a p Hwf Hp)
      as (es1 & e & es2 & c1 & _ & Hke & _ & HG1 & Hes1 & _).
    rewrite HG1 in HG. injection HG as _ <- _.
    apply (access_front a b (keys c1) [] (key <$> (es1 ++ es2)));
      [|done..].
    unfold keys. by rewrite Hes1, fmap_cons, Hke, app_nil_r.
  - intros c a v w fuel c' w' Hr HA b Hb Hne.
    pose proof (reachable_wf OnEvicted c Hr) as Hwf.
    unfold Add in HA.
    destruct (insert_or_update_keys c a v Hwf)
      as (c1 & Hc1 & Hwf1 & _ & Hks).
    rewrite Hc1 in HA.
    destruct (evict_keys _ _ _ _ _ _ Hwf1 HA) as [_ [ks Hpre]].
    destruct Hks as [Hks|(ks1 & ks2 & _ & Hks)];
      rewrite Hks in Hpre; by eapply access_front.
  - intros c a b w c' w' Hr Hab Hrun Hb.
    pose proof (reachable_wf OnEvicted c Hr) as Hwf.
    destruct (untouched_ahead OnEvicted a b c w c' w' Hrun Hwf) as [_ Ha];
      [by intros _|]. by apply Ha.
  - intros c a b w c' w' Hr Hab HR.
    pose proof (reachable_wf OnEvicted c Hr) as Hwf.
    destruct (RemoveOldest_keys _ _ _ _ _ Hwf HR) as [_ [Hks|[k Hks]]].
    + rewrite Hks. by apply before_in_l with b.
    + rewrite Hks in Hab. by apply before_survives with b k.
  - intros mb v1 v2 v3 w Hne Hx Hyx Hzxy Hzx.
    destruct (hit_updates_recency OnEvicted mb v1 v2 v3 w)
      as (c1 & c2 & c3 & c4 & H1 & H2 & H3 & H4 & Hes); try done.
    exists c1, c2, c3, c4. split_and!; try done.
    unfold keys. by rewrite Hes.
Qed.

(** C6.  On a reachable cache without entries [RemoveOldest] changes
    nothing.  Otherwise there is an entry [e] at the back of the recency
    order, and it returns the cache without [e] in the order and without
    its key in the index, with [nbytes] lowered ([int64] subtraction) by
    [int64(len(key) + value.Len())]; and the program state it leaves is
    the one the callback, if there is one, produces when called once on
    the key and the value of [e] and on that final cache. *)
Theorem C6_RemoveOldest (c : @Cache V) (w : W) :
  reachable OnEvicted c →
  (ll c = [] → RemoveOldest OnEvicted c w = Done tt c w)
  ∧ (ll c ≠ [] → ∃ es e, entries c = es ++ [e])
  ∧ (∀ es e, entries c = es ++ [e] →
       ∃ c', RemoveOldest OnEvicted c w
             = Done tt c' (match OnEvicted with
                           | Some f => f (key e) (value e) c' w
                           | None => w
                           end)
             ∧ entries c' = es
             ∧ cache c' = delete (key e) (cache c)
             ∧ (key e ∉ keys c')
             ∧ nbytes c' = sub64 (nbytes c) (entry_size (key e) (value e))
             ∧ nbytes c' = wrap64 (nbytes c - cost e)
             ∧ maxBytes c' = maxBytes c
             ∧ S (length (ll c')) = length (ll c)).
Proof.
  intros Hr. pose proof (reachable_wf OnEvicted c Hr) as Hwf. split_and!.
  - apply RemoveOldest_empty.
  - intros Hll. destruct (snoc_or_nil (entries c)) as [Hes|Hes]; [|done].
    by apply entries_nil in Hes.
  - intros es e Hes.
    destruct (RemoveOldest_last OnEvicted c w es e Hwf Hes)
      as (c' & HR & Hes' & Hnb & Hmb & Hcache & Hlen & Hwf').
    exists c'. split_and!; try done.
    + apply keys_absent; [done|]. rewrite Hcache. apply lookup_delete_eq.
    + rewrite Hnb. unfold sub64, entry_size, add64. apply wrap64_sub_r.
Qed.

(** C7 (amended).  On a reachable cache, for a resident key, the
    update branch of [Add] puts the new value in the entry of that key,
    moves the entry to the front, keeps the other entries in their
    order and the number of entries, and adds
    [int64(value.Len() - old.Len())] to [nbytes] in [int64]
    arithmetic.  [Add] returns that cache when [maxBytes = 0] or
    [nbytes] so adjusted is [<= maxBytes]; otherwise its loop goes on to
    evict.  So [Add(k, v1)] then [Add(k, v2)] on a new cache, when
    neither entry exceeds the budget (or [maxBytes = 0]), leaves one
    entry, [(k, v2)], and [nbytes = int64(len(k) + v2.Len())]. *)
Theorem C7_Add_existing_key :
  (∀ (c : @Cache V) k v (w : W),
     reachable OnEvicted c → k ∈ keys c →
     ∃ es1 e es2 c1,
       entries c = es1 ++ e :: es2 ∧ key e = k
       ∧ insert_or_update k v c = Some c1
       ∧ entries c1 = Entry k v :: es1 ++ es2
       ∧ nbytes c1 = add64 (nbytes c) (sub64 (Len v) (Len (value e)))
       ∧ length (ll c1) = length (ll c)
       ∧ maxBytes c1 = maxBytes c
       ∧ (over_budget c1 = false →
          ∀ fuel, Add OnEvicted (S fuel) k v c w = Done tt c1 w))
  ∧ (∀ mb k (v1 v2 : V) (w : W) fuel,
       mb = 0 ∨ (entry_size k v1 ≤ mb ∧ entry_size k v2 ≤ mb) →
       ∃ c1 c2,
         Add OnEvicted (S fuel) k v1 (New mb) w = Done tt c1 w
         ∧ Add OnEvicted (S fuel) k v2 c1 w = Done tt c2 w
         ∧ Cache_Len c2 w = Done 1 c2 w
         ∧ entries c2 = [Entry k v2]
         ∧ nbytes c2 = entry_size k v2).
Proof.
  split.
  - intros c k v w Hr Hk. pose proof (reachable_wf OnEvicted c Hr) as Hwf.
    apply keys_index in Hk as [p Hp]; [|done].
    destruct (update_present c k v p Hwf Hp)
      as (es1 & e & es2 & c1 & Hes & Hke & _ & Hc1 & Hes1 & Hnb & Hmb & _
          & Hlen & _).
    exists es1, e, es2, c1. split_and!; try done.
    intros Hob fuel. by apply Add_no_eviction.
  - intros mb k v1 v2 w fuel Hfit.
    pose proof (wf_New (V:=V) mb) as Hwf0.
    destruct (insert_absent (New mb) k v1 Hwf0 (lookup_empty k))
      as (c1 & Hc1 & Hes1 & Hnb1 & Hmb1 & Hlen1 & Hwf1).
    assert (cache c1 !! k = Some (fresh (dom (heap (New (V:=V) mb))))) as Hk1.
    { rewrite insert_miss in Hc1 by apply lookup_empty.
      injection Hc1 as <-. apply lookup_insert_eq. }
    destruct (update_present c1 k v2 _ Hwf1 Hk1)
      as (es1 & e & es2 & c2 & Hes & Hke & _ & Hc2 & Hes2 & Hnb2 & Hmb2 & _
          & Hlen2 & Hwf2).
    rewrite Hes1 in Hes. destruct es1 as [|? [|? ?]]; try discriminate.
    injection Hes as <- <-. rewrite app_nil_l in Hes2.
    assert (nbytes c1 = entry_size k v1) as Hn1.
    { rewrite (wf_bytes c1 Hwf1). unfold total. rewrite Hes1.
      unfold entry_size, add64, cost. simpl. f_equal. lia. }
    assert (nbytes c2 = entry_size k v2) as Hn2.
    { rewrite (wf_bytes c2 Hwf2). unfold total. rewrite Hes2.
      unfold entry_size, add64, cost. simpl. f_equal. lia. }
    exists c1, c2. split_and!; try done.
    + apply Add_no_eviction; [done|]. apply over_budget_false.
      rewrite Hmb1, Hn1. simpl. tauto.
    + apply Add_no_eviction; [done|]. apply over_budget_false.
      rewrite Hmb2, Hmb1, Hn2. simpl. tauto.
    + unfold Cache_Len. rewrite Hlen2, Hlen1. done.
Qed.

(** C8.  On a reachable cache, [Get] of a resident key returns the
    value stored under it with [true], moves the entry of that key to
    the front of the recency order and keeps the other entries in their
    order; [nbytes], [maxBytes], the index and the number of entries are
    as before, and the program state is untouched: no callback ran. *)
Theorem C8_Get_hit (c : @Cache V) k (w : W) :
  reachable OnEvicted c → k ∈ keys c →
  ∃ es1 e es2 c',
    entries c = es1 ++ e :: es2 ∧ key e = k
    ∧ Get k c w = Done (Some (value e), true) c' w
    ∧ entries c' = e :: es1 ++ es2
    ∧ entries c' ≡ₚ entries c
    ∧ nbytes c' = nbytes c ∧ maxBytes c' = maxBytes c
    ∧ cache c' = cache c
    ∧ length (ll c') = length (ll c).
Proof.
  intros Hr Hk. pose proof (reachable_wf OnEvicted c Hr) as Hwf.
  apply keys_index in Hk as [p Hp]; [|done].
  destruct (Get_present c w k p Hwf Hp)
    as (es1 & e & es2 & c' & Hes & Hke & _ & HG & Hes' & Hnb & Hmb & Hca & _
        & Hlen & _).
  exists es1, e, es2, c'. split_and!; try done.
  rewrite Hes, Hes'. apply Permutation_middle.
Qed.

(** C9.  On a reachable cache, [Get] of a key that is not resident
    returns no value with [false] and the very cache and program state
    it was given. *)
Theorem C9_Get_miss (c : @Cache V) k (w : W) :
  reachable OnEvicted c → k ∉ keys c →
  Get k c w = Done (None, false) c w.
Proof.
  intros Hr Hk. pose proof (reachable_wf OnEvicted c Hr) as Hwf.
  apply Get_miss. by apply keys_absent.
Qed.

(** C10.  With [maxBytes = 0], an [Add] on a reachable cache returns
    at the first test of its loop, with the cache as the insertion or
    update left it and the program state untouched: nothing is
    evicted.  And [N] calls of [Add] with distinct keys on [New(0)]
    return a cache of [N] entries, the keys from last to first added. *)
Theorem C10_unbounded_never_evicts :
  (∀ (c : @Cache V) k v (w : W) fuel,
     reachable OnEvicted c → maxBytes c = 0 →
     ∃ c1, insert_or_update k v c = Some c1
           ∧ Add OnEvicted (S fuel) k v c w = Done tt c1 w)
  ∧ (∀ (kvs : list (string * V)) (w : W) fuel,
       NoDup kvs.*1 →
       ∃ c', add_all OnEvicted (S fuel) kvs (New 0) w = Done tt c' w
             ∧ Cache_Len c' w = Done (Z.of_nat (length kvs)) c' w
             ∧ keys c' = reverse kvs.*1).
Proof.
  split.
  - intros c k v w fuel Hr Hmb.
    pose proof (reachable_wf OnEvicted c Hr) as Hwf.
    destruct (insert_or_update_wf c k v Hwf) as (c1 & Hc1 & _ & Hmb1).
    exists c1. split; [done|]. apply Add_no_eviction; [done|].
    apply unbounded_within. congruence.
  - intros kvs w fuel Hnd.
    destruct (add_all_unbounded OnEvicted fuel kvs (New 0) w)
      as (c' & Hrun & _ & _ & Hks & Hlen); try done.
    { apply wf_New. }
    { intros k _. apply not_elem_of_nil. }
    exists c'. split_and!; [done| |by rewrite Hks, app_nil_r].
    unfold Cache_Len. rewrite Hlen. simpl. by rewrite Nat.add_0_r.
Qed.

End Claims.

(** ** Further properties of the methods *)

Section Further.

Context {V : Type} `{!Value V} {W : Type}.
Variable OnEvicted : option (string → V → @Cache V → W → W).

Implicit Types (c : @Cache V) (e : @entry V) (k : string) (v : V) (w : W).


(** The entry at the front is the one [Get] of its key returns, and the
    cache stays as it is: the element is at the front already. *)
Lemma Get_front c w e es :
  wf c → entries c = e :: es →
  Get (key e) c w = Done (Some (value e), true) c w.
Proof.
  intros Hwf Hes.
  destruct (entries_split_inv c [] e es Hwf Hes)
    as (l1 & p & l2 & Hl & H1 & Hp & _ & Hn1 & Hn2 & Hk).
  assert (l1 = []) as ->.
  { destruct l1 as [|q l1]; [done|]. exfalso.
    assert (q ∈ ll c) as Hq by (rewrite Hl; left).
    destruct (wf_elem c Hwf q Hq) as (eq & Heq & _).
    by rewrite (ents_cons _ _ eq) in H1. }
  rewrite (Get_hit c w (key e) p [] l2 e) by done.
  cbn [app] in *. rewrite <- Hl. by destruct c.
Qed.

(** Both branches of [Add] leave the entry [(k, v)] at the front, and
    behind it entries of the cache that are under other keys. *)
Lemma insert_or_update_front c k v :
  wf c →
  ∃ c1 es, insert_or_update k v c = Some c1 ∧ wf c1
           ∧ maxBytes c1 = maxBytes c
           ∧ entries c1 = Entry k v :: es
           ∧ (∀ e, e ∈ es → e ∈ entries c ∧ key e ≠ k).
Proof.
  intros Hwf. destruct (cache c !! k) as [p|] eqn:Hk.
  - destruct (update_present c k v p Hwf Hk)
      as (es1 & e & es2 & c1 & Hes & Hke & _ & Hc1 & Hes1 & _ & Hmb & _ & _
          & Hwf1).
    exists c1, (es1 ++ es2). split_and!; try done.
    intros e' He'. pose proof (keys_NoDup c Hwf) as Hnd.
    unfold keys in Hnd. rewrite Hes, fmap_app, fmap_cons, Hke in Hnd.
    apply NoDup_app in Hnd as (_ & Hd & Hnd2).
    apply NoDup_cons in Hnd2 as [Hn2 _].
    rewrite Hes. apply elem_of_app in He' as [He'|He'].
    + split; [apply elem_of_app; by left|]. intros Hkk.
      apply (Hd k); [|left]. rewrite <- Hkk. by apply list_elem_of_fmap_2.
    + split; [apply elem_of_app; right; by right|]. intros Hkk.
      apply Hn2. rewrite <- Hkk. by apply list_elem_of_fmap_2.
  - destruct (insert_absent c k v Hwf Hk)
      as (c1 & Hc1 & Hes1 & _ & Hmb & _ & Hwf1).
    exists c1, (entries c). split_and!; try done.
    intros e' He'. split; [done|]. intros Hkk.
    apply (keys_absent c k Hwf) in Hk. apply Hk. rewrite <- Hkk.
    by apply list_elem_of_fmap_2.
Qed.

Lemma evict_front fuel c w c' w' e0 es :
  wf c → entries c = e0 :: es →
  evict OnEvicted fuel c w = Done tt c' w' →
  entries c' = [] ∨ ∃ es', entries c' = e0 :: es'.
Proof.
  intros Hwf Hes Hev. destruct (evict_prefix _ _ _ _ _ _ Hwf Hev) as [es' Hpre].
  destruct (entries c') as [|e1 es1]; [by left|]. right.
  rewrite Hes in Hpre. injection Hpre as -> _. eauto.
Qed.

(** The loop stops before an entry at the front that fits the budget
    by itself. *)
Lemma evict_keeps_fitting fuel c w c' w' e0 es :
  wf c → entries c = e0 :: es →
  maxBytes c = 0 ∨ holds (maxBytes c) [e0] →
  evict OnEvicted fuel c w = Done tt c' w' →
  ∃ es', entries c' = e0 :: es'.
Proof.
  revert c w es. induction fuel as [|fuel IH]; intros c w es Hwf Hes Hfit Hev;
    [done|].
  destruct (over_budget c) eqn:Hob.
  - apply over_budget_true in Hob as Hob'. destruct Hob' as [Hne Hlt].
    destruct Hfit as [?|Hfit]; [done|].
    destruct (snoc_or_nil es) as [->|(es1 & e & ->)].
    + exfalso. rewrite (wf_bytes c Hwf) in Hlt. unfold total in Hlt.
      rewrite Hes in Hlt. unfold holds in Hfit. lia.
    + destruct (RemoveOldest_last OnEvicted c w (e0 :: es1) e Hwf Hes)
        as (c2 & HR & Hes2 & _ & Hmb2 & _ & _ & Hwf2).
      rewrite (evict_step _ _ _ _ _ _ Hob HR) in Hev.
      eapply (IH c2 _ es1); try done. rewrite Hmb2. by right.
  - rewrite evict_within in Hev by done. injection Hev as <- _. eauto.
Qed.

Lemma holds_entry_size mb k v :
  holds mb [Entry k v] ↔ entry_size k v ≤ mb.
Proof.
  unfold holds, entry_size, add64, cost. simpl.
  by rewrite Z.add_0_r.
Qed.


(** X2.  After an [Add(k, v)] that returned on a reachable cache,
    either no entry is left at all, or [Get(k)] returns [v] with [true]
    and leaves the cache as it is: the added entry is the last one the
    loop would evict. *)
Theorem X2_Add_then_Get (c : @Cache V) k v (w : W) fuel c' w' :
  reachable OnEvicted c →
  Add OnEvicted fuel k v c w = Done tt c' w' →
  entries c' = []
  ∨ ∀ w'' : W, Get k c' w'' = Done (Some v, true) c' w''.
Proof.
  intros Hr HA. pose proof (reachable_wf OnEvicted c Hr) as Hwf.
  destruct (Add_wf _ _ _ _ _ _ _ _ Hwf HA) as (Hwf' & _ & _).
  unfold Add in HA.
  destruct (insert_or_update_front c k v Hwf)
    as (c1 & es & Hc1 & Hwf1 & _ & Hes1 & _).
  rewrite Hc1 in HA.
  destruct (evict_front _ _ _ _ _ _ _ Hwf1 Hes1 HA) as [?|[es' Hes']];
    [by left|right].
  intros w''. exact (Get_front c' w'' (Entry k v) es' Hwf' Hes').
Qed.

(** X3.  An entry that fits the budget by itself ([maxBytes = 0], or
    [int64(len(k) + v.Len()) <= maxBytes]) is resident after its own
    [Add]: [Get(k)] then returns [v]. *)
Theorem X3_fitting_entry_stays (c : @Cache V) k v (w : W) fuel c' w' :
  reachable OnEvicted c →
  maxBytes c = 0 ∨ entry_size k v ≤ maxBytes c →
  Add OnEvicted fuel k v c w = Done tt c' w' →
  k ∈ keys c'
  ∧ ∀ w'' : W, Get k c' w'' = Done (Some v, true) c' w''.
Proof.
  intros Hr Hfit HA. pose proof (reachable_wf OnEvicted c Hr) as Hwf.
  destruct (Add_wf _ _ _ _ _ _ _ _ Hwf HA) as (Hwf' & _ & _).
  unfold Add in HA.
  destruct (insert_or_update_front c k v Hwf)
    as (c1 & es & Hc1 & Hwf1 & Hmb1 & Hes1 & _).
  rewrite Hc1 in HA.
  assert (maxBytes c1 = 0 ∨ holds (maxBytes c1) [Entry k v]) as Hfit1.
  { by rewrite Hmb1, holds_entry_size. }
  destruct (evict_keeps_fitting _ _ _ _ _ (Entry k v) es Hwf1 Hes1 Hfit1 HA)
    as [es' Hes'].
  split.
  - unfold keys. rewrite Hes'. left.
  - intros w''. exact (Get_front c' w'' (Entry k v) es' Hwf' Hes').
Qed.

(** X4.  A second [Get] of the same key right after a [Get] returns
    the same result and changes nothing: the entry is at the front
    already (or the key is still absent). *)
Theorem X4_Get_twice (c : @Cache V) k (w : W) r c' w' :
  reachable OnEvicted c →
  Get k c w = Done r c' w' →
  Get k c' w' = Done r c' w'.
Proof.
  intros Hr HG. pose proof (reachable_wf OnEvicted c Hr) as Hwf.
  destruct (cache c !! k) as [p|] eqn:Hk.
  - destruct (Get_present c w k p Hwf Hk)
      as (es1 & e & es2 & c1 & _ & Hke & _ & HG1 & Hes1 & _ & _ & _ & _ & _
          & Hwf1).
    rewrite HG1 in HG. injection HG as <- <- <-.
    rewrite <- Hke. exact (Get_front c1 w e (es1 ++ es2) Hwf1 Hes1).
  - rewrite Get_miss in HG by done. injection HG as <- <- <-.
    by apply Get_miss.
Qed.

Lemma no_longer_self {A} (xs : list A) y ys : xs ≠ xs ++ y :: ys.
Proof.
  intros Heq. apply (f_equal length) in Heq.
  rewrite length_app in Heq. simpl in Heq. lia.
Qed.

(** The entry evicted last was needed: with it the budget was exceeded. *)
Lemma evict_minimal fuel c w c' w' :
  wf c → evict OnEvicted fuel c w = Done tt c' w' →
  ∀ e es, entries c = entries c' ++ e :: es →
          maxBytes c ≠ 0 ∧ ¬ holds (maxBytes c) (entries c' ++ [e]).
Proof.
  revert c w. induction fuel as [|fuel IH]; intros c w Hwf Hev e es Heq;
    [done|].
  destruct (over_budget c) eqn:Hob.
  - destruct (snoc_or_nil (entries c)) as [Hes|(es0 & e1 & Hes)].
    + destruct (evict_empty _ _ _ _ _ _ Hwf Hes Hev) as [-> _].
      by apply no_longer_self in Heq.
    + destruct (RemoveOldest_last OnEvicted c w es0 e1 Hwf Hes)
        as (c2 & HR & Hes2 & _ & Hmb2 & _ & _ & Hwf2).
      rewrite (evict_step _ _ _ _ _ _ Hob HR) in Hev.
      destruct (snoc_or_nil es) as [->|(es' & e' & ->)].
      * rewrite Hes in Heq. apply app_inj_tail in Heq as [-> ->].
        apply over_budget_true in Hob as [Hne Hlt]. split; [done|].
        unfold holds. rewrite (wf_bytes c Hwf) in Hlt. unfold total in Hlt.
        rewrite Hes in Hlt. lia.
      * rewrite Hes in Heq.
        replace (entries c' ++ e :: es' ++ [e'])
          with ((entries c' ++ e :: es') ++ [e']) in Heq
          by (by rewrite <- app_assoc).
        apply app_inj_tail in Heq as [Heq _]. rewrite <- Hes2 in Heq.
        rewrite <- Hmb2. by apply (IH c2 _ Hwf2 Hev e es').
  - rewrite evict_within in Hev by done. injection Hev as <- _.
    by apply no_longer_self in Heq.
Qed.

Lemma entries_key_inj c e1 e2 :
  wf c → e1 ∈ entries c → e2 ∈ entries c → key e1 = key e2 → e1 = e2.
Proof.
  intros Hwf. pose proof (keys_NoDup c Hwf) as Hnd. unfold keys in Hnd.
  induction (entries c) as [|x xs IH]; intros H1 H2 Hk.
  - by apply elem_of_nil in H1.
  - rewrite fmap_cons in Hnd. apply NoDup_cons in Hnd as [Hx Hnd].
    apply elem_of_cons in H1 as [->|H1]; apply elem_of_cons in H2 as [->|H2].
    + done.
    + destruct Hx. rewrite Hk. by apply list_elem_of_fmap_2.
    + destruct Hx. rewrite <- Hk. by apply list_elem_of_fmap_2.
    + by apply IH.
Qed.

(** [Get] finds every resident entry under its key. *)
Lemma Get_resident c w e :
  wf c → e ∈ entries c →
  ∃ c', Get (key e) c w = Done (Some (value e), true) c' w.
Proof.
  intros Hwf He.
  assert (is_Some (cache c !! key e)) as [p Hp].
  { apply keys_index; [done|]. by apply list_elem_of_fmap_2. }
  destruct (Get_present c w (key e) p Hwf Hp)
    as (es1 & e0 & es2 & c' & Hes & Hke & _ & HG & _).
  assert (e0 = e) as ->.
  { apply (entries_key_inj c); [done| |done..].
    rewrite Hes. apply elem_of_app. right. left. }
  eauto.
Qed.

(** X5.  [Add] evicts from the back of the recency order only, and no
    more than the budget requires: the entries it removes are the ones
    behind those it leaves, and if it removed any, then [maxBytes != 0]
    and the entries left together with the one removed last weigh more
    than [maxBytes] (in the [int64] sum the cache keeps). *)
Theorem X5_Add_evicts_only_as_needed
  (c : @Cache V) k v (w : W) fuel c' w' :
  reachable OnEvicted c →
  Add OnEvicted fuel k v c w = Done tt c' w' →
  ∃ c1 es,
    insert_or_update k v c = Some c1
    ∧ entries c1 = entries c' ++ es
    ∧ (∀ e es', es = e :: es' →
                maxBytes c ≠ 0 ∧ ¬ holds (maxBytes c) (entries c' ++ [e])).
Proof.
  intros Hr HA. pose proof (reachable_wf OnEvicted c Hr) as Hwf.
  unfold Add in HA.
  destruct (insert_or_update_wf c k v Hwf) as (c1 & Hc1 & Hwf1 & Hmb1).
  rewrite Hc1 in HA.
  destruct (evict_prefix _ _ _ _ _ _ Hwf1 HA) as [es Hes].
  exists c1, es. split_and!; [done..|].
  intros e es' ->. rewrite <- Hmb1.
  by apply (evict_minimal fuel c1 w c' w' Hwf1 HA e es').
Qed.

(** X6.  After a [RemoveOldest] that evicted the entry at the back, on
    a reachable cache, [Get] of the evicted key finds nothing and
    changes nothing, and [Get] of every other resident key still
    returns the value it had. *)
Theorem X6_RemoveOldest_then_Get (c : @Cache V) (w : W) es e :
  reachable OnEvicted c → entries c = es ++ [e] →
  ∃ c' w',
    RemoveOldest OnEvicted c w = Done tt c' w'
    ∧ (∀ w'' : W, Get (key e) c' w'' = Done (None, false) c' w'')
    ∧ (∀ e' (w'' : W), e' ∈ es →
         ∃ c'', Get (key e') c' w'' = Done (Some (value e'), true) c'' w'').
Proof.
  intros Hr Hes. pose proof (reachable_wf OnEvicted c Hr) as Hwf.
  destruct (RemoveOldest_last OnEvicted c w es e Hwf Hes)
    as (c' & HR & Hes' & _ & _ & Hcache & _ & Hwf').
  exists c', (notified OnEvicted e c' w). split_and!; [done| |].
  - intros w''. apply Get_miss. rewrite Hcache. apply lookup_delete_eq.
  - intros e' w'' He'. apply Get_resident; [done|]. by rewrite Hes'.
Qed.

(** X7.  An [Add(k, v)] that returned on a reachable cache leaves only
    entries that are [(k, v)] itself or were there before under another
    key, with the value they had: no other key is brought in or
    rewritten. *)
Theorem X7_Add_leaves_other_keys (c : @Cache V) k v (w : W) fuel c' w' :
  reachable OnEvicted c →
  Add OnEvicted fuel k v c w = Done tt c' w' →
  ∀ e, e ∈ entries c' → e = Entry k v ∨ (e ∈ entries c ∧ key e ≠ k).
Proof.
  intros Hr HA e He. pose proof (reachable_wf OnEvicted c Hr) as Hwf.
  unfold Add in HA.
  destruct (insert_or_update_front c k v Hwf)
    as (c1 & es & Hc1 & Hwf1 & _ & Hes1 & Hold).
  rewrite Hc1 in HA.
  destruct (evict_prefix _ _ _ _ _ _ Hwf1 HA) as [es' Hpre].
  assert (e ∈ entries c1) as He1.
  { rewrite Hpre. apply elem_of_app. by left. }
  rewrite Hes1 in He1. apply elem_of_cons in He1 as [->|He1]; [by left|].
  right. by apply Hold.
Qed.

(** X8.  On a reachable cache [Len] returns the number of keys of the
    index, which is the number of resident keys, and changes nothing;
    it returns 0 exactly when [Get] finds no key at all. *)
Theorem X8_Len_counts_keys (c : @Cache V) (w : W) :
  reachable OnEvicted c →
  Cache_Len c w = Done (Z.of_nat (size (cache c))) c w
  ∧ size (cache c) = length (keys c)
  ∧ (size (cache c) = 0%nat
     ↔ ∀ k, Get k c w = Done (None, false) c w).
Proof.
  intros Hr. pose proof (reachable_wf OnEvicted c Hr) as Hwf. split_and!.
  - unfold Cache_Len. by rewrite (wf_card c Hwf).
  - unfold keys. by rewrite length_fmap, entries_length, (wf_card c Hwf).
  - rewrite map_size_empty_iff. split.
    + intros Hempty k. apply Get_miss. by rewrite Hempty.
    + intros Hmiss. apply map_empty. intros k.
      destruct (cache c !! k) as [p|] eqn:Hk; [|done].
      destruct (Get_present c w k p Hwf Hk)
        as (_ & e & _ & c' & _ & _ & _ & HG & _).
      rewrite Hmiss in HG. discriminate.
Qed.

Lemma drain_empties n c w :
  wf c → (length (ll c) ≤ n)%nat →
  ∃ c' w', drain OnEvicted n c w = Done tt c' w' ∧ wf c'
           ∧ ll c' = [] ∧ maxBytes c' = maxBytes c.
Proof.
  revert c w. induction n as [|n IH]; intros c w Hwf Hlen.
  - exists c, w. split_and!; try done. apply nil_length_inv. lia.
  - cbn [drain].
    destruct (RemoveOldest_cases OnEvicted c w Hwf)
      as [[Hl ->]|(l1 & p & e & Hl & He & _ & ->)].
    + apply IH; [done|]. rewrite Hl. simpl. lia.
    + destruct (IH (without_oldest c l1 e) (notified OnEvicted e
                  (without_oldest c l1 e) w)) as (c' & w' & ? & ? & ? & ?).
      * by apply wf_without_oldest with p.
      * rewrite Hl, length_app in Hlen. simpl in *. lia.
      * exists c', w'. by split_and!.
Qed.

Lemma front_unique c k v es es1 e es2 :
  wf c → entries c = Entry k v :: es → entries c = es1 ++ e :: es2 →
  key e = k → es1 = [] ∧ e = Entry k v ∧ es2 = es.
Proof.
  intros Hwf Hes Hsplit Hke. pose proof (keys_NoDup c Hwf) as Hnd.
  unfold keys in Hnd. rewrite Hes in Hsplit, Hnd.
  destruct es1 as [|x es1]; simpl in Hsplit.
  - by injection Hsplit as -> ->.
  - injection Hsplit as -> ->. rewrite fmap_cons in Hnd.
    apply NoDup_cons in Hnd as [Hk _]. destruct Hk. simpl.
    rewrite fmap_app, fmap_cons, Hke. apply elem_of_app. right. left.
Qed.

(** X9.  [Len()] calls of [RemoveOldest] (or more) empty a reachable
    cache: no entry and no key of the index is left, [Len] returns 0,
    and [nbytes] is back at exactly 0, whatever the sizes were. *)
Theorem X9_drain_empties (c : @Cache V) (w : W) n :
  reachable OnEvicted c → (length (ll c) ≤ n)%nat →
  ∃ c' w',
    drain OnEvicted n c w = Done tt c' w'
    ∧ entries c' = [] ∧ cache c' = ∅ ∧ nbytes c' = 0
    ∧ maxBytes c' = maxBytes c
    ∧ Cache_Len c' w' = Done 0 c' w'.
Proof.
  intros Hr Hlen. pose proof (reachable_wf OnEvicted c Hr) as Hwf.
  destruct (drain_empties n c w Hwf Hlen) as (c' & w' & Hd & Hwf' & Hl & Hmb).
  assert (entries c' = []) as Hes by (unfold entries; by rewrite Hl).
  exists c', w'. split_and!; try done.
  - by apply wf_no_entries.
  - by apply wf_empty_nbytes.
  - unfold Cache_Len. by rewrite Hl.
Qed.

(** X10.  [Add(k, v)] twice is [Add(k, v)] once: if both calls return,
    on a reachable cache, the second leaves the entries, their order
    and [nbytes] as the first left them. *)
Theorem X10_Add_twice
  (c : @Cache V) k v (w : W) fuel c1 w1 fuel' (w1' : W) c2 w2 :
  reachable OnEvicted c →
  Add OnEvicted fuel k v c w = Done tt c1 w1 →
  Add OnEvicted fuel' k v c1 w1' = Done tt c2 w2 →
  entries c2 = entries c1 ∧ nbytes c2 = nbytes c1.
Proof.
  intros Hr HA1 HA2. pose proof (reachable_wf OnEvicted c Hr) as Hwf.
  destruct (Add_wf _ _ _ _ _ _ _ _ Hwf HA1) as (Hwf1 & Hmb1 & Hob1).
  destruct (Add_wf _ _ _ _ _ _ _ _ Hwf1 HA2) as (Hwf2 & Hmb2 & Hob2).
  assert (entries c2 = entries c1) as Hsame; [|split; [done|]].
  2:{ rewrite (wf_bytes c1 Hwf1), (wf_bytes c2 Hwf2). unfold total.
      by rewrite Hsame. }
  unfold Add in HA1, HA2.
  destruct (insert_or_update_front c k v Hwf)
    as (c0 & es0 & Hc0 & Hwf0 & Hmb0 & Hes0 & _).
  rewrite Hc0 in HA1.
  destruct (evict_front _ _ _ _ _ _ _ Hwf0 Hes0 HA1) as [Hnil|[es Hes]].
  - (* the first call evicted its own entry, and so does the second *)
    destruct (evict_minimal fuel c0 w c1 w1 Hwf0 HA1 (Entry k v) es0)
      as [Hne Hover]; [by rewrite Hnil|].
    rewrite Hnil in Hover. simpl in Hover.
    destruct (wf_no_entries c1 Hwf1 Hnil) as [_ Hempty].
    destruct (insert_absent c1 k v Hwf1) as (c1' & Hc1' & Hes1' & _ & Hmb1' & _
                                             & Hwf1').
    { by rewrite Hempty. }
    rewrite Hc1' in HA2. rewrite Hnil in Hes1'.
    destruct (evict_front _ _ _ _ _ _ _ Hwf1' Hes1' HA2) as [Hnil2|[es2 Hes2]];
      [by rewrite Hnil, Hnil2|].
    exfalso. destruct (evict_prefix _ _ _ _ _ _ Hwf1' HA2) as [es' Hpre].
    rewrite Hes1', Hes2 in Hpre. injection Hpre as Hpre.
    destruct es2; [|done].
    apply over_budget_false in Hob2 as [Hz|Hle]; [congruence|].
    apply Hover. unfold holds. rewrite (wf_bytes c2 Hwf2) in Hle.
    unfold total in Hle. rewrite Hes2 in Hle. congruence.
  - (* the entry is at the front: the second call updates it in place *)
    assert (is_Some (cache c1 !! k)) as [p Hp].
    { apply keys_index; [done|]. unfold keys. rewrite Hes. left. }
    destruct (update_present c1 k v p Hwf1 Hp)
      as (es1 & e & es2 & c1' & Hsplit & Hke & _ & Hc1' & Hes1' & _ & Hmb1'
          & _ & _ & Hwf1').
    destruct (front_unique c1 k v es es1 e es2 Hwf1 Hes Hsplit Hke)
      as (-> & -> & ->).
    rewrite Hc1' in HA2. simpl in Hes1'.
    assert (over_budget c1' = false) as Hob1'.
    { rewrite <- Hob1. unfold over_budget. rewrite Hmb1'.
      rewrite (wf_bytes c1 Hwf1), (wf_bytes c1' Hwf1'). unfold total.
      by rewrite Hes, Hes1'. }
    destruct fuel' as [|fuel']; [done|].
    rewrite evict_within in HA2 by done. injection HA2 as <- _.
    by rewrite Hes, Hes1'.
Qed.

(** X11.  The first [Add(k, v)] on a new cache, case by case on the
    budget and on [s = int64(len(k) + v.Len())].  If [maxBytes = 0] or
    [s <= maxBytes] it returns with the one entry and [nbytes = s], the
    callback not called.  If [0 < maxBytes < s] it returns with no
    entry and [nbytes = 0], the callback called once on [(k, v)].  If
    [maxBytes < 0] and [maxBytes < s] it returns for no amount of
    fuel. *)
Theorem X11_first_Add (mb : Z) k (v : V) (w : W) :
  (mb = 0 ∨ entry_size k v ≤ mb →
   ∃ c1, entries c1 = [Entry k v] ∧ nbytes c1 = entry_size k v
         ∧ ∀ fuel, Add OnEvicted (S fuel) k v (New mb) w = Done tt c1 w)
  ∧ (0 < mb → mb < entry_size k v →
     ∃ c', entries c' = [] ∧ nbytes c' = 0
           ∧ ∀ fuel, Add OnEvicted (S (S fuel)) k v (New mb) w
                     = Done tt c' (match OnEvicted with
                                   | Some f => f k v c' w
                                   | None => w
                                   end))
  ∧ (mb < 0 → mb < entry_size k v →
     ∀ fuel, Add OnEvicted fuel k v (New mb) w = Timeout).
Proof.
  destruct (insert_absent (New mb) k v (wf_New mb) (lookup_empty k))
    as (c1 & Hc1 & Hes1 & Hnb1 & Hmb1 & _ & Hwf1).
  change (entries (New mb)) with (@nil (@entry V)) in Hes1.
  change (maxBytes (New mb)) with mb in Hmb1.
  change (nbytes (New mb)) with 0 in Hnb1.
  assert (nbytes c1 = entry_size k v) as Hn1.
  { rewrite Hnb1. unfold add64. simpl. apply wrap64_id.
    unfold entry_size, add64. apply wrap64_range. }
  assert (mb ≠ 0 → mb < entry_size k v →
          over_budget c1 = true
          ∧ ∃ c2, RemoveOldest OnEvicted c1 w
                  = Done tt c2 (notified OnEvicted (Entry k v) c2 w)
                  ∧ wf c2 ∧ entries c2 = [] ∧ nbytes c2 = 0
                  ∧ maxBytes c2 = mb) as Hover.
  { intros Hne Hlt. split.
    - apply over_budget_true. rewrite Hmb1, Hn1. done.
    - destruct (RemoveOldest_last OnEvicted c1 w [] (Entry k v) Hwf1 Hes1)
        as (c2 & HR & Hes2 & _ & Hmb2 & _ & _ & Hwf2).
      exists c2. split_and!; try done; [|congruence].
      apply wf_empty_nbytes; [done|]. by apply entries_nil. }
  split_and!.
  - intros Hfit. exists c1. split_and!; [done..|]. intros fuel.
    apply Add_no_eviction; [done|]. apply over_budget_false.
    rewrite Hmb1, Hn1. done.
  - intros Hpos Hlt.
    destruct Hover as (Hob1 & c2 & HR & Hwf2 & Hes2 & Hn2 & Hmb2);
      [lia|done|].
    exists c2. split_and!; [done..|]. intros fuel. unfold Add.
    rewrite Hc1, (evict_step _ _ _ _ _ _ Hob1 HR). apply evict_within.
    apply over_budget_false. right. rewrite Hn2, Hmb2. lia.
  - intros Hneg Hlt fuel.
    destruct Hover as (Hob1 & c2 & HR & Hwf2 & Hes2 & Hn2 & Hmb2);
      [lia|done|].
    unfold Add. rewrite Hc1. destruct fuel as [|fuel]; [done|].
    rewrite (evict_step _ _ _ _ _ _ Hob1 HR).
    apply evict_diverges; [done|by rewrite Hmb2| |].
    + unfold nonneg_sizes. by rewrite Hes2.
    + unfold total. rewrite Hes2. done.
Qed.

End Further.

Section Logged.

Context {V : Type} `{!Value V}.

Lemma notified_log (e : @entry V) (c : @Cache V) (w : Log V) :
  notified log_eviction e c w = w ++ [(key e, value e, nbytes c, keys c)].
Proof. done. Qed.

Lemma evict_log fuel (c : @Cache V) (w : Log V) c' w' :
  wf c → evict log_eviction fuel c w = Done tt c' w' →
  ∃ es evs,
    entries c = entries c' ++ es ∧ w' = w ++ evs
    ∧ calls evs = reverse ((λ e, (key e, value e)) <$> es)
    ∧ Forall (λ x, x.1.1.1 ∉ x.2) evs.
Proof.
  revert c w. induction fuel as [|fuel IH]; intros c w Hwf Hev; [done|].
  assert (c' = c → w' = w →
          ∃ es evs, entries c = entries c' ++ es ∧ w' = w ++ evs
                    ∧ calls evs = reverse ((λ e, (key e, value e)) <$> es)
                    ∧ Forall (λ x, x.1.1.1 ∉ x.2) evs) as Hsame.
  { intros -> ->. exists [], []. by rewrite !app_nil_r. }
  destruct (over_budget c) eqn:Hob.
  - destruct (snoc_or_nil (entries c)) as [Hes|(es0 & e1 & Hes)].
    + destruct (evict_empty _ _ _ _ _ _ Hwf Hes Hev) as [-> ->]. by apply Hsame.
    + destruct (RemoveOldest_last log_eviction c w es0 e1 Hwf Hes)
        as (c2 & HR & Hes2 & _ & _ & Hcache & _ & Hwf2).
      rewrite (evict_step _ _ _ _ _ _ Hob HR) in Hev.
      destruct (IH _ _ Hwf2 Hev) as (es2 & evs2 & Hpre & Hw & Hcalls & Hall).
      exists (es2 ++ [e1]), ((key e1, value e1, nbytes c2, keys c2) :: evs2).
      split_and!.
      * by rewrite Hes, <- Hes2, Hpre, app_assoc.
      * rewrite Hw, notified_log, <- app_assoc. done.
      * unfold calls in *. rewrite fmap_cons, Hcalls, fmap_app, reverse_app.
        done.
      * apply Forall_cons. split; [|done]. simpl.
        apply keys_absent; [done|]. rewrite Hcache. apply lookup_delete_eq.
  - rewrite evict_within in Hev by done. injection Hev as <- <-.
    by apply Hsame.
Qed.

(** X12.  With a callback that records its calls, an [Add] that
    returned on a reachable cache has called it once for each entry it
    evicted and for nothing else, with the key and the value of that
    entry, the least recently used first; and each time the cache the
    callback saw no longer held the key. *)
Theorem X12_callback_once_per_eviction
  (c : @Cache V) k v (w : Log V) fuel c' w' :
  reachable log_eviction c →
  Add log_eviction fuel k v c w = Done tt c' w' →
  ∃ c1 es evs,
    insert_or_update k v c = Some c1
    ∧ entries c1 = entries c' ++ es
    ∧ w' = w ++ evs
    ∧ calls evs = reverse ((λ e, (key e, value e)) <$> es)
    ∧ Forall (λ x, x.1.1.1 ∉ x.2) evs.
Proof.
  intros Hr HA. pose proof (reachable_wf log_eviction c Hr) as Hwf.
  unfold Add in HA.
  destruct (insert_or_update_wf c k v Hwf) as (c1 & Hc1 & Hwf1 & _).
  rewrite Hc1 in HA.
  destruct (evict_log fuel c1 w c' w' Hwf1 HA) as (es & evs & ? & ? & ? & ?).
  by exists c1, es, evs.
Qed.

End Logged.

(** ** Concrete runs *)

Lemma reach_Add_after {V : Type} `{!Value V} {W : Type}
  (cb : option (string → V → @Cache V → W → W)) fuel k v c w d :
  reachable cb c → returned (Add cb fuel k v c w) = true →
  reachable cb (cache_after (Add cb fuel k v c w) d).
Proof.
  intros Hr Hret.
  destruct (Add cb fuel k v c w) as [[] c' w'| |] eqn:HA; try done.
  simpl. by eapply reach_Add.
Qed.

Lemma reach_New_concrete {V : Type} `{!Value V} {W : Type}
  (cb : option (string → V → @Cache V → W → W)) mb :
  bool_decide (min_int64 ≤ mb ≤ max_int64) = true → reachable cb (New mb).
Proof. intros H. apply reach_New. by apply bool_decide_eq_true in H. Qed.

Ltac run_concrete :=
  vm_compute;
  lazymatch goal with
  | |- _ = _ => reflexivity
  | |- _ → False => let H := fresh in intro H; discriminate H
  end.

Ltac decide_concrete :=
  lazymatch goal with
  | |- ?P => apply (bool_decide_eq_true_1 P); vm_compute; reflexivity
  end.

Lemma two_entries_reachable : reachable log_eviction two_entries.
Proof.
  unfold two_entries.
  apply reach_Add_after; [|run_concrete].
  apply reach_Add_after; [|run_concrete].
  apply reach_New_concrete. run_concrete.
Qed.

Lemma one_entry_reachable : reachable log_eviction one_entry.
Proof.
  unfold one_entry. apply reach_Add_after; [|run_concrete].
  apply reach_New_concrete. run_concrete.
Qed.

Lemma C1_witness :
  reachable log_eviction two_entries
  ∧ maxBytes two_entries ≠ 0
  ∧ third_add = Done tt (cache_after third_add (New 10))
                        (world_after third_add [])
  ∧ keys (cache_after third_add (New 10)) = ["c"; "b"]
  ∧ nbytes (cache_after third_add (New 10))
    ≤ maxBytes (cache_after third_add (New 10)).
Proof.
  assert (maxBytes two_entries ≠ 0) as Hne by run_concrete.
  assert (third_add = Done tt (cache_after third_add (New 10))
                              (world_after third_add [])) as Hrun
    by run_concrete.
  split_and!; [exact two_entries_reachable|exact Hne|exact Hrun
              |run_concrete|].
  exact (proj1 (proj2 (C1_capacity_after_Add log_eviction two_entries
                         "c" "cccc"%string [] two_entries_reachable Hne)
                  3%nat _ _ Hrun)).
Defined.

(** C1, as stated, fails: on [New(5, nil)], [Add("a", v)] with
    [v.Len() = MaxInt64] returns at the first test of the loop
    ([nbytes] wrapped to [MinInt64]) and leaves one entry whose key
    length + value size is [2^63 > 5]. *)
Lemma C1_counterexample :
  reachable (W:=unit) None (New (V:=Sized) 5)
  ∧ Add None 1 "a" (Sz max_int64) (New 5) tt = Done tt huge_bounded tt
  ∧ maxBytes huge_bounded = 5
  ∧ total huge_bounded = 2 ^ 63
  ∧ maxBytes huge_bounded < total huge_bounded
  ∧ length (ll huge_bounded) = 1%nat.
Proof.
  split_and!;
    [apply reach_New_concrete; run_concrete|run_concrete..].
Qed.

Lemma C2_witness :
  reachable log_eviction (New (V:=string) 3)
  ∧ maxBytes (New (V:=string) 3) ≠ 0
  ∧ oversized_add = Done tt (cache_after oversized_add (New 3))
                            (world_after oversized_add [])
  ∧ nbytes (cache_after oversized_add (New 3))
    ≤ maxBytes (cache_after oversized_add (New 3)).
Proof.
  assert (reachable log_eviction (New (V:=string) 3)) as Hr
    by (apply reach_New_concrete; run_concrete).
  assert (maxBytes (New (V:=string) 3) ≠ 0) as Hne by run_concrete.
  assert (oversized_add = Done tt (cache_after oversized_add (New 3))
                                  (world_after oversized_add [])) as Hrun
    by run_concrete.
  split_and!; [exact Hr|exact Hne|exact Hrun|].
  exact (proj1 (proj1 (C2_budget_without_exemption log_eviction (New 3)
                         Hr Hne)
                  2%nat "k" "hello"%string [] _ _ Hrun)).
Defined.

(** C2, as stated, fails: on [New(3, log)], [Add("k", "hello")] inserts
    an entry of size 6 that alone exceeds the budget, and the loop
    evicts that very entry: the callback ran for ["k"], no entry is
    left, the key is gone from the index. *)
Lemma C2_counterexample :
  oversized_add = Done tt (cache_after oversized_add (New 3))
                          [("k", "hello"%string, 0, [])]
  ∧ maxBytes (New (V:=string) 3) < cost (Entry "k" "hello"%string)
  ∧ keys (cache_after oversized_add (New 3)) = []
  ∧ cache (cache_after oversized_add (New 3)) !! "k" = None
  ∧ length (ll (cache_after oversized_add (New 3))) = 0%nat.
Proof. split_and!; run_concrete. Qed.

Lemma C3_witness :
  reachable log_eviction (New (V:=string) (-1))
  ∧ maxBytes (New (V:=string) (-1)) < 0
  ∧ (∀ fuel, Add log_eviction fuel "a" "x"%string (New (-1)) [] = Timeout).
Proof.
  assert (reachable log_eviction (New (V:=string) (-1))) as Hr
    by (apply reach_New_concrete; run_concrete).
  split_and!; [exact Hr|run_concrete|].
  refine (proj2 (C3_Add_termination log_eviction (New (-1)) "a" "x"%string
                   [] Hr) _ _ _ _).
  - run_concrete.
  - apply Forall_nil_2.
  - run_concrete.
  - run_concrete.
Defined.

(** C3, as stated, fails: with [maxBytes = -1], after
    [Add("a", v)] with [v.Len() = MaxInt64] (which returns at once,
    [nbytes] being [MinInt64]), [Add("c", v)] brings [nbytes] to 0,
    enters the loop, evicts ["a"], finds [nbytes = MinInt64 <= -1] and
    returns. *)
Lemma C3_counterexample :
  reachable log_eviction negative_one
  ∧ maxBytes negative_one = -1
  ∧ negative_second_add
    = Done tt (cache_after negative_second_add (New (-1)))
           [("a", Sz max_int64, min_int64, ["c"])]
  ∧ keys (cache_after negative_second_add (New (-1))) = ["c"].
Proof.
  split_and!; [|run_concrete|run_concrete|run_concrete].
  unfold negative_one. apply reach_Add_after; [|run_concrete].
  apply reach_New_concrete. run_concrete.
Qed.

Lemma C4_witness :
  reachable log_eviction two_entries ∧ consistent two_entries.
Proof.
  split; [exact two_entries_reachable|].
  exact (C4_index_and_bytes_consistent log_eviction two_entries
           two_entries_reachable).
Defined.

(** C4, as stated, fails: [New(0, nil)] followed by
    [Add("a", v)] with [v.Len() = MaxInt64] is a reachable cache whose
    [nbytes] is [MinInt64] while key length + value size is [2^63]. *)
Lemma C4_counterexample :
  reachable (W:=unit) None huge_unbounded
  ∧ nbytes huge_unbounded = min_int64
  ∧ total huge_unbounded = 2 ^ 63
  ∧ nbytes huge_unbounded ≠ total huge_unbounded.
Proof.
  split_and!; [|run_concrete|run_concrete|run_concrete].
  unfold huge_unbounded. apply reach_Add_after; [|run_concrete].
  apply reach_New_concrete. run_concrete.
Qed.

Lemma C5_witness :
  reachable log_eviction two_entries
  ∧ before "b" "a" (keys two_entries)
  ∧ RemoveOldest log_eviction two_entries []
    = Done tt (cache_after (RemoveOldest log_eviction two_entries [])
                           two_entries)
           [("a", "aaaa"%string, 5, ["b"])]
  ∧ "b" ∈ keys (cache_after (RemoveOldest log_eviction two_entries [])
                            two_entries)
  ∧ ∃ c1 c2 c3 c4,
      Add log_eviction 1 "x" "aaaa"%string (New 10) [] = Done tt c1 []
      ∧ Add log_eviction 1 "y" "bbbb"%string c1 [] = Done tt c2 []
      ∧ Get "x" c2 ([] : Log string)
        = Done (Some "aaaa"%string, true) c3 []
      ∧ Add log_eviction 2 "z" "cccc"%string c3 []
        = Done tt c4 (notified log_eviction (Entry "y" "bbbb"%string) c4 [])
      ∧ keys c4 = ["z"; "x"].
Proof.
  assert (before "b" "a" (keys two_entries)) as Hab.
  { exists [], [], []. run_concrete. }
  assert (RemoveOldest log_eviction two_entries []
          = Done tt (cache_after (RemoveOldest log_eviction two_entries [])
                                 two_entries)
                 [("a", "aaaa"%string, 5, ["b"])]) as HR
    by run_concrete.
  split_and!; [exact two_entries_reachable|exact Hab|exact HR| |].
  - exact (proj1 (proj2 (proj2 (proj2 (C5_recency_order log_eviction))))
             two_entries "b" "a" [] _ _ two_entries_reachable Hab HR).
  - refine (proj2 (proj2 (proj2 (proj2 (C5_recency_order log_eviction))))
              10 "aaaa"%string "bbbb"%string "cccc"%string [] _ _ _ _ _).
    + run_concrete.
    + run_concrete.
    + run_concrete.
    + intros H. vm_compute in H. exact (H eq_refl).
    + run_concrete.
Defined.

Lemma C6_witness :
  reachable log_eviction two_entries
  ∧ entries two_entries
    = [Entry "b" "bbbb"%string] ++ [Entry "a" "aaaa"%string]
  ∧ ∃ c', RemoveOldest log_eviction two_entries []
          = Done tt c' (notified log_eviction (Entry "a" "aaaa"%string) c' [])
          ∧ entries c' = [Entry "b" "bbbb"%string]
          ∧ nbytes c' = wrap64 (nbytes two_entries
                                - cost (Entry "a" "aaaa"%string)).
Proof.
  assert (entries two_entries
          = [Entry "b" "bbbb"%string] ++ [Entry "a" "aaaa"%string]) as Hes
    by run_concrete.
  split_and!; [exact two_entries_reachable|exact Hes|].
  destruct (proj2 (proj2 (C6_RemoveOldest log_eviction two_entries []
                            two_entries_reachable)) _ _ Hes)
    as (c' & HR & Hes' & _ & _ & _ & Hnb & _).
  exists c'. split_and!; [exact HR|exact Hes'|exact Hnb].
Defined.

Lemma C7_witness :
  reachable log_eviction one_entry
  ∧ "k" ∈ keys one_entry
  ∧ ∃ c1, insert_or_update "k" "bb"%string one_entry = Some c1
          ∧ entries c1 = [Entry "k" "bb"%string]
          ∧ length (ll c1) = length (ll one_entry).
Proof.
  assert ("k" ∈ keys one_entry) as Hk by decide_concrete.
  split_and!; [exact one_entry_reachable|exact Hk|].
  destruct (proj1 (C7_Add_existing_key log_eviction) one_entry "k"
              "bb"%string [] one_entry_reachable Hk)
    as (es1 & e & es2 & c1 & Hes & _ & Hc1 & Hes1 & _ & Hlen & _).
  exists c1. split_and!; [exact Hc1| |exact Hlen].
  rewrite Hes1. f_equal.
  assert (entries one_entry = [Entry "k" "aaaa"%string]) as Hone
    by run_concrete.
  rewrite Hone in Hes. destruct es1 as [|? [|? ?]]; try discriminate Hes.
  by injection Hes as _ <-.
Defined.

(** C7, as stated, fails: on [New(10, log)] holding ["k"] with 4 bytes,
    [Add("k", v)] with 20 bytes brings [nbytes] to 21, and the loop
    evicts the entry just updated: the count goes from 1 to 0. *)
Lemma C7_counterexample :
  reachable log_eviction one_entry
  ∧ keys one_entry = ["k"]
  ∧ growing_update
    = Done tt (cache_after growing_update (New 10))
           [("k", "aaaaaaaaaaaaaaaaaaaa"%string, 0, [])]
  ∧ length (ll one_entry) = 1%nat
  ∧ length (ll (cache_after growing_update (New 10))) = 0%nat
  ∧ nbytes (cache_after growing_update (New 10)) = 0.
Proof.
  split_and!; [exact one_entry_reachable|run_concrete..].
Qed.

Lemma C8_witness :
  reachable log_eviction two_entries
  ∧ "a" ∈ keys two_entries
  ∧ ∃ e c', key e = "a"
            ∧ Get "a" two_entries
                  ([] : Log string)
              = Done (Some (value e), true) c' []
            ∧ nbytes c' = nbytes two_entries.
Proof.
  assert ("a" ∈ keys two_entries) as Hk by decide_concrete.
  split_and!; [exact two_entries_reachable|exact Hk|].
  destruct (C8_Get_hit log_eviction two_entries "a" []
              two_entries_reachable Hk)
    as (es1 & e & es2 & c' & _ & Hke & HG & _ & _ & Hnb & _).
  exists e, c'. split_and!; [exact Hke|exact HG|exact Hnb].
Defined.

Lemma C9_witness :
  reachable log_eviction two_entries
  ∧ ("missing" ∉ keys two_entries)
  ∧ Get "missing" two_entries ([] : Log string)
    = Done (None, false) two_entries [].
Proof.
  assert ("missing" ∉ keys two_entries) as Hk by decide_concrete.
  split_and!; [exact two_entries_reachable|exact Hk|].
  exact (C9_Get_miss log_eviction two_entries "missing" []
           two_entries_reachable Hk).
Defined.

Lemma C10_witness :
  NoDup [("a", "x"%string); ("b", "yy"%string); ("c", "zzz"%string)].*1
  ∧ ∃ c', add_all log_eviction 1
            [("a", "x"%string); ("b", "yy"%string); ("c", "zzz"%string)]
            (New 0) ([] : Log string)
          = Done tt c' []
          ∧ Cache_Len c' ([] : Log string)
            = Done 3 c' []
          ∧ keys c' = ["c"; "b"; "a"].
Proof.
  assert (NoDup [("a", "x"%string); ("b", "yy"%string);
                 ("c", "zzz"%string)].*1) as Hnd by decide_concrete.
  split; [exact Hnd|].
  exact (proj2 (C10_unbounded_never_evicts log_eviction) _ [] 0%nat Hnd).
Defined.

Lemma third_add_returns :
  Add log_eviction 3 "c" "cccc"%string two_entries []
  = Done tt (cache_after third_add (New 10)) (world_after third_add []).
Proof. run_concrete. Qed.


Lemma X2_witness :
  reachable log_eviction two_entries
  ∧ Add log_eviction 3 "c" "cccc"%string two_entries []
    = Done tt (cache_after third_add (New 10)) (world_after third_add [])
  ∧ (entries (cache_after third_add (New 10)) = []
     ∨ ∀ w'' : Log string,
         Get "c" (cache_after third_add (New 10)) w''
         = Done (Some "cccc"%string, true)
                (cache_after third_add (New 10)) w'').
Proof.
  split_and!; [exact two_entries_reachable|exact third_add_returns|].
  exact (X2_Add_then_Get log_eviction two_entries "c" "cccc"%string [] 3%nat
           _ _ two_entries_reachable third_add_returns).
Defined.

Lemma X3_witness :
  reachable log_eviction two_entries
  ∧ (maxBytes two_entries = 0
     ∨ entry_size "c" "cccc"%string ≤ maxBytes two_entries)
  ∧ Add log_eviction 3 "c" "cccc"%string two_entries []
    = Done tt (cache_after third_add (New 10)) (world_after third_add [])
  ∧ "c" ∈ keys (cache_after third_add (New 10)).
Proof.
  assert (maxBytes two_entries = 0
          ∨ entry_size "c" "cccc"%string ≤ maxBytes two_entries) as Hfit
    by (right; run_concrete).
  split_and!; [exact two_entries_reachable|exact Hfit
              |exact third_add_returns|].
  exact (proj1 (X3_fitting_entry_stays log_eviction two_entries "c"
                  "cccc"%string [] 3%nat _ _ two_entries_reachable Hfit
                  third_add_returns)).
Defined.

Lemma get_older_returns :
  Get "a" two_entries ([] : Log string)
  = Done (Some "aaaa"%string, true) (cache_after get_older two_entries) [].
Proof. run_concrete. Qed.

Lemma X4_witness :
  reachable log_eviction two_entries
  ∧ Get "a" two_entries ([] : Log string)
    = Done (Some "aaaa"%string, true) (cache_after get_older two_entries) []
  ∧ keys (cache_after get_older two_entries) = ["a"; "b"]
  ∧ Get "a" (cache_after get_older two_entries) ([] : Log string)
    = Done (Some "aaaa"%string, true) (cache_after get_older two_entries) [].
Proof.
  split_and!; [exact two_entries_reachable|exact get_older_returns
              |run_concrete|].
  exact (X4_Get_twice log_eviction two_entries "a" [] _ _ _
           two_entries_reachable get_older_returns).
Defined.

Lemma X5_witness :
  reachable log_eviction two_entries
  ∧ Add log_eviction 3 "c" "cccc"%string two_entries []
    = Done tt (cache_after third_add (New 10)) (world_after third_add [])
  ∧ ∃ c1 es,
      insert_or_update "c" "cccc"%string two_entries = Some c1
      ∧ entries c1 = entries (cache_after third_add (New 10)) ++ es
      ∧ (∀ e es', es = e :: es' →
           maxBytes two_entries ≠ 0
           ∧ ¬ holds (maxBytes two_entries)
                 (entries (cache_after third_add (New 10)) ++ [e])).
Proof.
  split_and!; [exact two_entries_reachable|exact third_add_returns|].
  exact (X5_Add_evicts_only_as_needed log_eviction two_entries "c"
           "cccc"%string [] 3%nat _ _ two_entries_reachable
           third_add_returns).
Defined.

Lemma two_entries_entries :
  entries two_entries = [Entry "b" "bbbb"%string] ++ [Entry "a" "aaaa"%string].
Proof. run_concrete. Qed.

Lemma X6_witness :
  reachable log_eviction two_entries
  ∧ entries two_entries
    = [Entry "b" "bbbb"%string] ++ [Entry "a" "aaaa"%string]
  ∧ ∃ c' w',
      RemoveOldest log_eviction two_entries [] = Done tt c' w'
      ∧ (∀ w'' : Log string, Get "a" c' w'' = Done (None, false) c' w'')
      ∧ (∀ e' (w'' : Log string), e' ∈ [Entry "b" "bbbb"%string] →
           ∃ c'', Get (key e') c' w''
                  = Done (Some (value e'), true) c'' w'').
Proof.
  split_and!; [exact two_entries_reachable|exact two_entries_entries|].
  exact (X6_RemoveOldest_then_Get log_eviction two_entries [] _ _
           two_entries_reachable two_entries_entries).
Defined.

Lemma X7_witness :
  reachable log_eviction two_entries
  ∧ Add log_eviction 3 "c" "cccc"%string two_entries []
    = Done tt (cache_after third_add (New 10)) (world_after third_add [])
  ∧ ∀ e, e ∈ entries (cache_after third_add (New 10)) →
         e = Entry "c" "cccc"%string
         ∨ (e ∈ entries two_entries ∧ key e ≠ "c").
Proof.
  split_and!; [exact two_entries_reachable|exact third_add_returns|].
  exact (X7_Add_leaves_other_keys log_eviction two_entries "c"
           "cccc"%string [] 3%nat _ _ two_entries_reachable
           third_add_returns).
Defined.

Lemma X8_witness :
  reachable log_eviction two_entries
  ∧ Cache_Len two_entries ([] : Log string)
    = Done (Z.of_nat (size (cache two_entries))) two_entries [].
Proof.
  split; [exact two_entries_reachable|].
  exact (proj1 (X8_Len_counts_keys log_eviction two_entries []
                  two_entries_reachable)).
Defined.

Lemma X9_witness :
  reachable log_eviction two_entries
  ∧ (length (ll two_entries) ≤ 2)%nat
  ∧ ∃ c' w',
      drain log_eviction 2 two_entries [] = Done tt c' w'
      ∧ entries c' = [] ∧ cache c' = ∅ ∧ nbytes c' = 0
      ∧ maxBytes c' = maxBytes two_entries
      ∧ Cache_Len c' w' = Done 0 c' w'.
Proof.
  assert (length (ll two_entries) ≤ 2)%nat as Hlen by decide_concrete.
  split_and!; [exact two_entries_reachable|exact Hlen|].
  exact (X9_drain_empties log_eviction two_entries [] 2
           two_entries_reachable Hlen).
Defined.

Lemma first_add_returns :
  Add log_eviction 1 "k" "aaaa"%string (New 10) [] = Done tt one_entry [].
Proof. run_concrete. Qed.

Lemma same_add_again_returns :
  Add log_eviction 1 "k" "aaaa"%string one_entry []
  = Done tt (cache_after same_add_again one_entry) [].
Proof. run_concrete. Qed.

Lemma X10_witness :
  reachable log_eviction (New (V:=string) 10)
  ∧ Add log_eviction 1 "k" "aaaa"%string (New 10) [] = Done tt one_entry []
  ∧ Add log_eviction 1 "k" "aaaa"%string one_entry []
    = Done tt (cache_after same_add_again one_entry) []
  ∧ entries (cache_after same_add_again one_entry) = entries one_entry
  ∧ nbytes (cache_after same_add_again one_entry) = nbytes one_entry.
Proof.
  assert (reachable log_eviction (New (V:=string) 10)) as Hr
    by (apply reach_New_concrete; run_concrete).
  split_and!; [exact Hr|exact first_add_returns
              |exact same_add_again_returns| |].
  - exact (proj1 (X10_Add_twice log_eviction (New 10) "k" "aaaa"%string []
                    1%nat _ _ 1%nat [] _ _ Hr first_add_returns
                    same_add_again_returns)).
  - exact (proj2 (X10_Add_twice log_eviction (New 10) "k" "aaaa"%string []
                    1%nat _ _ 1%nat [] _ _ Hr first_add_returns
                    same_add_again_returns)).
Defined.

Lemma X11_witness :
  (10 = 0 ∨ entry_size "k" "aaaa"%string ≤ 10)
  ∧ (0 < 3 ∧ 3 < entry_size "k" "hello"%string)
  ∧ (-1 < 0 ∧ -1 < entry_size "k" "x"%string)
  ∧ (∃ c1, entries c1 = [Entry "k" "aaaa"%string]
           ∧ nbytes c1 = entry_size "k" "aaaa"%string
           ∧ ∀ fuel, Add log_eviction (S fuel) "k" "aaaa"%string (New 10) []
                     = Done tt c1 [])
  ∧ (∃ c', entries c' = [] ∧ nbytes c' = 0
           ∧ ∀ fuel, Add log_eviction (S (S fuel)) "k" "hello"%string
                         (New 3) []
                     = Done tt c' (notified log_eviction
                                     (Entry "k" "hello"%string) c' []))
  ∧ (∀ fuel, Add log_eviction fuel "k" "x"%string (New (-1)) [] = Timeout).
Proof.
  assert (10 = 0 ∨ entry_size "k" "aaaa"%string ≤ 10) as H1
    by (right; run_concrete).
  assert (0 < 3) as H2 by run_concrete.
  assert (3 < entry_size "k" "hello"%string) as H3 by run_concrete.
  assert (-1 < 0) as H4 by run_concrete.
  assert (-1 < entry_size "k" "x"%string) as H5 by run_concrete.
  split_and!; [exact H1|exact H2|exact H3|exact H4|exact H5| | |].
  - exact (proj1 (X11_first_Add log_eviction 10 "k" "aaaa"%string []) H1).
  - exact (proj1 (proj2 (X11_first_Add log_eviction 3 "k" "hello"%string []))
             H2 H3).
  - exact (proj2 (proj2 (X11_first_Add log_eviction (-1) "k" "x"%string []))
             H4 H5).
Defined.

Lemma X12_witness :
  reachable log_eviction two_entries
  ∧ Add log_eviction 3 "c" "cccc"%string two_entries []
    = Done tt (cache_after third_add (New 10)) (world_after third_add [])
  ∧ calls (world_after third_add []) = [("a", "aaaa"%string)]
  ∧ ∃ c1 es evs,
      insert_or_update "c" "cccc"%string two_entries = Some c1
      ∧ entries c1 = entries (cache_after third_add (New 10)) ++ es
      ∧ world_after third_add [] = [] ++ evs
      ∧ calls evs = reverse ((λ e, (key e, value e)) <$> es)
      ∧ Forall (λ x, x.1.1.1 ∉ x.2) evs.
Proof.
  split_and!; [exact two_entries_reachable|exact third_add_returns
              |run_concrete|].
  exact (X12_callback_once_per_eviction two_entries "c" "cccc"%string []
           3%nat _ _ two_entries_reachable third_add_returns).
Defined.
